(** * Four-Russians LCS: a shallow embedding of [four-russians.py]

    The Python program keeps its dynamic-programming grids in
    [defaultdict]s keyed by coordinate pairs, and its block table in a
    [defaultdict] keyed by 4-tuples.  Both are modelled as [gmap]s; a
    subscript read on a [defaultdict] that misses stores the default, so
    reads return the (possibly grown) dictionary next to the value.
    Python exceptions are the [Raise] branch of a small error monad. *)

From Stdlib Require Import ZArith Ascii String List Lia.
From stdpp Require Import base tactics option list numbers countable strings gmap fin_maps.

Local Open Scope Z_scope.
Local Open Scope nat_scope.

(** ** Exceptions and the error monad *)

Inductive exn : Type :=
| IndexError
| AssertionError.

Inductive result (A : Type) : Type :=
| Ok (a : A)
| Raise (e : exn).
Arguments Ok {A} a.
Arguments Raise {A} e.

Definition bind {A B : Type} (k : A -> result B) (c : result A) : result B :=
  match c with
  | Ok a => k a
  | Raise e => Raise e
  end.

#[global] Instance result_ret : MRet result := @Ok.
#[global] Instance result_bind : MBind result := @bind.

(** [for x in l: s = body x s], stopping at the first exception. *)
Fixpoint for_each {A S : Type} (l : list A) (body : A -> S -> result S) (s : S)
  : result S :=
  match l with
  | [] => Ok s
  | x :: l' => s' ← body x s; for_each l' body s'
  end.

(** [range(a, b)] *)
Definition range (a b : nat) : list nat := seq a (b - a).

(** [l[i]] for [0 <= i]: out of range raises. *)
Definition index {A : Type} (l : list A) (i : nat) : result A :=
  match l !! i with
  | Some x => Ok x
  | None => Raise IndexError
  end.

(** ** Dictionaries *)

Abbreviation Grid := (gmap (nat * nat) Z).

(** [d[k]] on a [defaultdict(int)]: a miss stores and returns 0. *)
Definition getitem (d : Grid) (k : nat * nat) : Z * Grid :=
  match d !! k with
  | Some x => (x, d)
  | None => (0%Z, <[k := 0%Z]> d)
  end.

(** [d.get(k, 0)]: never stores. *)
Definition get0 (d : Grid) (k : nat * nat) : Z := default 0%Z (d !! k).

(** ** [construct_lcs_grid] *)

Definition fill_cell (u v : list ascii) (i j : nat) (dp : Grid) : result Grid :=
  a ← index u (i - 1);
  b ← index v (j - 1);
  if bool_decide (a = b) then
    let '(x, dp) := getitem dp (i, j) in
    let '(y, dp) := getitem dp (i - 1, j - 1) in
    Ok (<[(i, j) := Z.max x (y + 1)]> dp)
  else
    let '(x, dp) := getitem dp (i - 1, j) in
    let '(y, dp) := getitem dp (i, j - 1) in
    Ok (<[(i, j) := Z.max x y]> dp).

Definition construct_lcs_grid (u v : list ascii) (first_col first_row : list Z)
  : result Grid :=
  let m := length u in
  let n := length v in
  let dp : Grid := ∅ in
  dp ← for_each (range 0 (m + 1))
          (fun i dp => x ← index first_col i; Ok (<[(i, 0) := x]> dp)) dp;
  dp ← for_each (range 0 (n + 1))
          (fun j dp => x ← index first_row j; Ok (<[(0, j) := x]> dp)) dp;
  for_each (range 1 (m + 1))
    (fun i dp => for_each (range 1 (n + 1)) (fun j dp => fill_cell u v i j dp) dp)
    dp.

(** ** [offset_vectors_generator]

    The generator recurses until [len(current_vector) == t]; the model
    recurses on the number of entries still to append. *)
Fixpoint offset_vectors_from (remaining : nat) (current_vector : list Z)
  : list (list Z) :=
  match remaining with
  | 0 => [current_vector]
  | S r =>
      flat_map (fun offset => offset_vectors_from r (current_vector ++ [offset]))
               [0%Z; 1%Z]
  end.

Definition offset_vectors_generator (t : nat) : list (list Z) :=
  offset_vectors_from t [].

(** ** [precompute_grids] *)

Definition bases : list ascii := ["A"; "T"; "C"; "G"; "$"]%char.

Fixpoint generate_strings (length : nat) (current_string : list ascii)
  : list (list ascii) :=
  match length with
  | 0 => [current_string]
  | S l =>
      flat_map (fun base => generate_strings l (current_string ++ [base])) bases
  end.

Abbreviation Key := (list ascii * list ascii * list Z * list Z)%type.
Abbreviation Table := (gmap Key Grid).

(** [sum(offsets[:i])] *)
Definition sum_prefix (offsets : list Z) (i : nat) : Z :=
  foldr Z.add 0%Z (take i offsets).

Definition boundary (t : nat) (offsets : list Z) : list Z :=
  map (sum_prefix offsets) (range 0 (t + 1)).

Definition precompute_grids (t : nat) : result Table :=
  let grids : Table := ∅ in
  let strings_t := generate_strings t [] in
  for_each strings_t (fun u grids =>
    for_each strings_t (fun v grids =>
      for_each (offset_vectors_generator t) (fun first_row_offsets grids =>
        for_each (offset_vectors_generator t) (fun first_col_offsets grids =>
          let first_row := boundary t first_row_offsets in
          let first_col := boundary t first_col_offsets in
          g ← construct_lcs_grid u v first_col first_row;
          Ok (<[(u, v, first_row_offsets, first_col_offsets) := g]> grids))
        grids) grids) grids) grids.

(** ** [four_russians] *)

(** The [while next_power_of_2 < max(m, n)] loop.  [fuel] bounds the
    number of iterations; [padded_length_exit] below shows that the loop
    leaves through its own test when started with [fuel := bound]. *)
Fixpoint pow2_loop (fuel next_power_of_2 bound : nat) : nat :=
  match fuel with
  | 0 => next_power_of_2
  | S fuel' =>
      if next_power_of_2 <? bound
      then pow2_loop fuel' (next_power_of_2 * 2) bound
      else next_power_of_2
  end.

Definition padded_length (m n : nat) : nat := pow2_loop (max m n) 1 (max m n).

(** [u.ljust(width, fill)] *)
Definition ljust (u : list ascii) (width : nat) (fill : ascii) : list ascii :=
  u ++ replicate (width - length u) fill.

(** [int(math.log(n, 4))] for [n > 0]: the integer part of the base-4
    logarithm.  The program computes it in floating point; the model
    takes its exact value, [floor (log2 n / 2)]. *)
Definition log4 (n : nat) : nat := Nat.log2 n / 2.

Definition block_size (n : nat) : nat := if 0 <? n then log4 n else 0.

(** [l[a:b]] *)
Definition slice {A : Type} (l : list A) (a b : nat) : list A :=
  take (b - a) (drop a l).

(** [grids[key]] on a [defaultdict(defaultdict)]: a miss stores and
    returns an empty dictionary. *)
Definition table_getitem (grids : Table) (key : Key) : Grid * Table :=
  match grids !! key with
  | Some g => (g, grids)
  | None => (∅, <[key := ∅]> grids)
  end.

(** [tuple(F[hi k] - F[lo k] for k in ks)] *)
Fixpoint offsets_of (F : Grid) (ks : list nat) (hi lo : nat -> nat * nat)
  : list Z * Grid :=
  match ks with
  | [] => ([], F)
  | k :: ks' =>
      let '(a, F) := getitem F (hi k) in
      let '(b, F) := getitem F (lo k) in
      let '(r, F) := offsets_of F ks' hi lo in
      ((a - b)%Z :: r, F)
  end.

(** The state of the assembly loop: the main grid, the block table, and
    the keys subscripted so far (a trace kept for the safety statement;
    nothing reads it). *)
Record state : Type := State {
  st_F : Grid;
  st_grids : Table;
  st_keys : list Key
}.

Definition block_step (u v : list ascii) (t i j : nat) (st : state) : state :=
  let u_chunk := slice u (i * t) ((i + 1) * t) in
  let v_chunk := slice v (j * t) ((j + 1) * t) in
  let '(first_row_offsets, F) :=
    offsets_of (st_F st) (range 0 t)
      (fun k => (i * t, j * t + k + 1)) (fun k => (i * t, j * t + k)) in
  let '(first_col_offsets, F) :=
    offsets_of F (range 0 t)
      (fun k => (i * t + k + 1, j * t)) (fun k => (i * t + k, j * t)) in
  let key := (u_chunk, v_chunk, first_row_offsets, first_col_offsets) in
  let '(lcs_grid, grids) := table_getitem (st_grids st) key in
  let '(offset, F) := getitem F (i * t, j * t) in
  let F :=
    foldl (fun (F : Grid) k =>
             let F := <[(i * t + k, (j + 1) * t) := (offset + get0 lcs_grid (k, t))%Z]> F in
             <[((i + 1) * t, j * t + k) := (offset + get0 lcs_grid (t, k))%Z]> F)
          F (range 0 (t + 1)) in
  State F grids (st_keys st ++ [key]).

Definition assemble (u v : list ascii) (t subgrids : nat) (st : state) : state :=
  foldl (fun st i => foldl (fun st j => block_step u v t i j st) st (range 0 subgrids))
        st (range 0 subgrids).

Definition init_F (n : nat) : Grid :=
  foldl (fun (F : Grid) i => <[(0, i) := 0%Z]> (<[(i, 0) := 0%Z]> F)) ∅
        (range 0 (n + 1)).

(** The assertion [n / t == n // t] compares the floating point quotient
    with the integer quotient; the model takes its exact meaning,
    [n mod t = 0]. *)
Definition four_russians (u v : list ascii) : result Z :=
  let m := length u in
  let n := length v in
  let next_power_of_2 := padded_length m n in
  let u := ljust u next_power_of_2 "$" in
  let v := ljust v next_power_of_2 "$" in
  let n := next_power_of_2 in
  let t := block_size n in
  if t =? 0 then
    dp ← construct_lcs_grid u v (replicate (n + 1) 0%Z) (replicate (n + 1) 0%Z);
    Ok (fst (getitem dp (m, n)))
  else
    grids ← precompute_grids t;
    let F := init_F n in
    if bool_decide (n mod t = 0) then
      let subgrids := n / t in
      let st := assemble u v t subgrids (State F grids []) in
      Ok (fst (getitem (st_F st) (m, n)))
    else Raise AssertionError.

(** The baseline the program is cross-checked against: the plain grid
    with all-zero boundaries, read at its last cell. *)
Definition naive_lcs (u v : list ascii) : result Z :=
  let m := length u in
  let n := length v in
  dp ← construct_lcs_grid u v (replicate (m + 1) 0%Z) (replicate (n + 1) 0%Z);
  Ok (fst (getitem dp (m, n))).

(** ** The test harness

    The baseline score of the [__main__] block: both boundaries are
    [n + 1] zeros and the grid is read at [(n, n)], with [n = len(s1)]. *)
Definition main_basic_score (s1 s2 : list ascii) : result Z :=
  let n := length s1 in
  let first_row := replicate (n + 1) 0%Z in
  let first_col := replicate (n + 1) 0%Z in
  dp ← construct_lcs_grid s1 s2 first_row first_col;
  Ok (fst (getitem dp (n, n))).

(** * Vocabulary of the statements and proofs *)

(** ** Strings and alphabets *)

(** A string literal as the list of its characters. *)
Definition str (x : string) : list ascii := list_ascii_of_string x.

(** The real alphabet, without the sentinel. *)
Definition alphabet : list ascii := ["A"; "T"; "C"; "G"]%char.

(** The two values of an offset. *)
Definition bits : list Z := [0%Z; 1%Z].

(** A word of length [t] over an alphabet. *)
Definition word_over {A : Type} (alphabet : list A) (t : nat) (w : list A) : Prop :=
  length w = t /\ Forall (fun x => x ∈ alphabet) w.

(** ** The recurrence in closed form

    [cell u v first_col first_row i j] is the value the fill loop of
    [construct_lcs_grid] leaves at [(i, j)]: the recurrence of [fill_cell]
    unrolled over the cells it reads, with the boundary arrays read with
    default 0.  [same u v i j] is the test [u[i] == v[j]].  Both are stated
    for an arbitrary character test [eqb], so that the grid under another
    notion of equality can be compared with the program's. *)

(** Python's [==] on characters. *)
Definition char_eq (a b : ascii) : bool := bool_decide (a = b).

Definition same_with (eqb : ascii -> ascii -> bool) (u v : list ascii)
    (i j : nat) : bool :=
  match u !! i, v !! j with
  | Some a, Some b => eqb a b
  | _, _ => false
  end.

Fixpoint cell_with (eqb : ascii -> ascii -> bool) (u v : list ascii)
    (first_col first_row : list Z) (i : nat) : nat -> Z :=
  match i with
  | 0 => fun j => default 0%Z (first_row !! j)
  | S i' =>
      fix row (j : nat) : Z :=
        match j with
        | 0 => default 0%Z (first_col !! i)
        | S j' =>
            if same_with eqb u v i' j'
            then Z.max 0 (cell_with eqb u v first_col first_row i' j' + 1)
            else Z.max (cell_with eqb u v first_col first_row i' j) (row j')
        end
  end.

Abbreviation same := (same_with char_eq).

Abbreviation cell := (cell_with char_eq).

(** The grid with all-zero boundaries: the LCS scores of the prefixes. *)
Definition lcs (u v : list ascii) : nat -> nat -> Z := cell u v [] [].

(** The loops of [construct_lcs_grid] with the character test as a
    parameter; at [char_eq] they are the program's, word for word. *)
Definition fill_cell_with (eqb : ascii -> ascii -> bool) (u v : list ascii)
    (i j : nat) (dp : Grid) : result Grid :=
  a ← index u (i - 1);
  b ← index v (j - 1);
  if eqb a b then
    let '(x, dp) := getitem dp (i, j) in
    let '(y, dp) := getitem dp (i - 1, j - 1) in
    Ok (<[(i, j) := Z.max x (y + 1)]> dp)
  else
    let '(x, dp) := getitem dp (i - 1, j) in
    let '(y, dp) := getitem dp (i, j - 1) in
    Ok (<[(i, j) := Z.max x y]> dp).

Definition construct_lcs_grid_with (eqb : ascii -> ascii -> bool)
    (u v : list ascii) (first_col first_row : list Z) : result Grid :=
  let m := length u in
  let n := length v in
  let dp : Grid := ∅ in
  dp ← for_each (range 0 (m + 1))
          (fun i dp => x ← index first_col i; Ok (<[(i, 0) := x]> dp)) dp;
  dp ← for_each (range 0 (n + 1))
          (fun j dp => x ← index first_row j; Ok (<[(0, j) := x]> dp)) dp;
  for_each (range 1 (m + 1))
    (fun i dp => for_each (range 1 (n + 1))
                   (fun j dp => fill_cell_with eqb u v i j dp) dp)
    dp.

(** The specification's reading of symbol equality: the sentinel [$]
    equals nothing, itself included. *)
Definition sentinel_eq (a b : ascii) : bool :=
  bool_decide (a = b /\ a <> "$"%char).

(** The grid under that reading: the loops of [construct_lcs_grid], with
    [sentinel_eq] as the test. *)
Definition construct_lcs_grid_sentinel (u v : list ascii)
    (first_col first_row : list Z) : result Grid :=
  construct_lcs_grid_with sentinel_eq u v first_col first_row.

(** ** Shapes of grids and boundaries *)

(** Two neighbouring scores: the second is the first, or one more. *)
Definition unit_step (x y : Z) : Prop := (y = x \/ y = x + 1)%Z.

(** A boundary array as the Base Grid Filler expects it: non-negative,
    and each entry equal to the one before it or one more. *)
Definition boundary_ok (l : list Z) : Prop :=
  Forall (fun x => (0 <= x)%Z) l /\
  forall k x y, l !! k = Some x -> l !! S k = Some y -> unit_step x y.

(** The returned dictionary holds exactly the cells of the (t+1)x(t+1) grid. *)
Definition grid_full (t : nat) (dp : Grid) : Prop :=
  forall i j, is_Some (dp !! (i, j)) <-> i <= t /\ j <= t.

(** Row 0 holds [first_row]. *)
Definition grid_row0 (first_row : list Z) (t : nat) (dp : Grid) : Prop :=
  forall j, j <= t -> dp !! (0, j) = first_row !! j.

(** Column 0 holds [first_col] from row [from] down. *)
Definition grid_col0 (first_col : list Z) (t from : nat) (dp : Grid) : Prop :=
  forall i, from <= i -> i <= t -> dp !! (i, 0) = first_col !! i.

(** The recurrence of the Base Grid Filler, on the cells [1..t] x [1..t]. *)
Definition grid_recurrence (u v : list ascii) (t : nat) (dp : Grid) : Prop :=
  forall i j a b x y z,
    i < t -> j < t -> u !! i = Some a -> v !! j = Some b ->
    dp !! (i, j) = Some x ->
    dp !! (i, S j) = Some y ->
    dp !! (S i, j) = Some z ->
    dp !! (S i, S j)
    = Some (if bool_decide (a = b) then (x + 1)%Z else Z.max y z).

(** ** The block table *)

(** The grid [precompute_grids] computes for a key. *)
Definition block_grid (t : nat) (key : Key) : result Grid :=
  let '(u, v, first_row_offsets, first_col_offsets) := key in
  construct_lcs_grid u v (boundary t first_col_offsets) (boundary t first_row_offsets).

(** The keys [precompute_grids] enumerates: two length-[t] strings over
    the bases and the sentinel, two length-[t] vectors of 0s and 1s. *)
Definition valid_key (t : nat) (key : Key) : Prop :=
  let '(u, v, first_row_offsets, first_col_offsets) := key in
  word_over bases t u /\ word_over bases t v /\
  word_over bits t first_row_offsets /\ word_over bits t first_col_offsets.

(** The same keys as a list, in the order of the four nested loops. *)
Definition all_keys (t : nat) : list Key :=
  list_prod (list_prod (list_prod (generate_strings t []) (generate_strings t []))
                       (offset_vectors_generator t))
            (offset_vectors_generator t).

(** A loop (or loop body) that stores the grids of exactly the keys in
    [Q] and leaves the other entries alone. *)
Definition adds (t : nat) (Q : Key -> Prop) (step : Table -> result Table) : Prop :=
  forall g : Table, exists g' : Table, step g = Ok g' /\
    forall k, (Q k /\ exists x, block_grid t k = Ok x /\ g' !! k = Some x)
              \/ (~ Q k /\ g' !! k = g !! k).

(** The keys the assembly loop subscripted that the table did not hold. *)
Definition missed_keys (grids : Table) (st : state) : list Key :=
  filter (fun key => grids !! key = None) (st_keys st).

(** ** Padded length and block size *)

(** The values of the program's variables [n] (after padding) and [t]. *)
Definition padded_n (u v : list ascii) : nat := padded_length (length u) (length v).

Definition chosen_t (u v : list ascii) : nat := block_size (padded_n u v).

(** The specification's words for the two. *)
Definition is_pow2 (n : nat) : Prop := exists k, n = 2 ^ k.

Definition smallest_pow2_ge (bound n : nat) : Prop :=
  is_pow2 n /\ bound <= n /\ forall p, is_pow2 p -> bound <= p -> n <= p.

Definition floor_log4 (n t : nat) : Prop := 4 ^ t <= n /\ n < 4 ^ (t + 1).

(** A run of 33 [A]s: padded to 64, with block size 3. *)
Definition run_of_33 : list ascii := replicate 33 "A"%char.

(** ** Common subsequences *)

(** [w] can be read off both [u] and [v], in order. *)
Definition common_subsequence (w u v : list ascii) : Prop :=
  w `sublist_of` u /\ w `sublist_of` v.

(** [z] is the length of a longest common subsequence of [u] and [v]. *)
Definition lcs_length (u v : list ascii) (z : Z) : Prop :=
  (exists w, common_subsequence w u v /\ Z.of_nat (length w) = z) /\
  forall w, common_subsequence w u v -> (Z.of_nat (length w) <= z)%Z.

(** ** Enumeration order of the generators *)

(** The place of a symbol in an alphabet. *)
Definition position {A : Type} `{EqDecision A} (alphabet : list A) (x : A) : nat :=
  default 0 (fst <$> list_find (fun y => y = x) alphabet).

(** The number a word spells when its symbols are read as digits, most
    significant first, in base [b]. *)
Definition word_value {A : Type} (b : nat) (digit : A -> nat) (w : list A) : nat :=
  foldl (fun acc x => b * acc + digit x) 0 w.

(** ** The cells of the main grid *)

(** Every key of [F] satisfies [P]. *)
Definition keys_within (P : nat * nat -> Prop) (F : Grid) : Prop :=
  forall k, is_Some (F !! k) -> P k.

(** A cell of the [(n + 1) x (n + 1)] grid that lies on a block edge: its
    row or its column is a multiple of [t]. *)
Definition block_edge (n t : nat) (k : nat * nat) : Prop :=
  k.1 <= n /\ k.2 <= n /\ (k.1 mod t = 0 \/ k.2 mod t = 0).

(** * Verification *)

(** ** Loops *)

Lemma length_range a b : length (range a b) = b - a.
Proof. unfold range. by rewrite length_seq. Qed.

Lemma lookup_range a b k x : range a b !! k = Some x <-> x = a + k /\ k < b - a.
Proof. unfold range. apply lookup_seq. Qed.

Lemma for_each_inv {A T : Type} (P : nat -> T -> Prop) (l : list A) body (s : T) :
  P 0 s ->
  (forall k x s, l !! k = Some x -> P k s ->
     exists s', body x s = Ok s' /\ P (S k) s') ->
  exists s', for_each l body s = Ok s' /\ P (length l) s'.
Proof.
  revert P s. induction l as [|x l IH]; intros P s H0 Hstep; simpl.
  - eauto.
  - destruct (Hstep 0 x s eq_refl H0) as (s1 & -> & H1). simpl.
    apply (IH (fun k => P (S k))); [done|].
    intros k y s2 Hy. apply (Hstep (S k)). done.
Qed.

Lemma foldl_inv {A T : Type} (P : nat -> T -> Prop) (f : T -> A -> T) (l : list A)
    (s : T) :
  P 0 s ->
  (forall k x s, l !! k = Some x -> P k s -> P (S k) (f s x)) ->
  P (length l) (foldl f s l).
Proof.
  revert P s. induction l as [|x l IH]; intros P s H0 Hstep; simpl; [done|].
  apply (IH (fun k => P (S k))).
  - by apply (Hstep 0).
  - intros k y s2 Hy. by apply (Hstep (S k)).
Qed.

Lemma foldl_range_inv {T : Type} (P : nat -> T -> Prop) (f : T -> nat -> T)
    (a b : nat) (s : T) :
  P 0 s ->
  (forall k s, k < b - a -> P k s -> P (S k) (f s (a + k))) ->
  P (b - a) (foldl f s (range a b)).
Proof.
  intros H0 Hstep. rewrite <- (length_range a b). apply foldl_inv; [done|].
  intros k x s' [-> Hk]%lookup_range. by apply Hstep.
Qed.

(** ** Dictionary reads *)

Lemma getitem_Some (d : Grid) k x : d !! k = Some x -> getitem d k = (x, d).
Proof. unfold getitem. by intros ->. Qed.

Lemma getitem_None (d : Grid) k : d !! k = None -> getitem d k = (0%Z, <[k := 0%Z]> d).
Proof. unfold getitem. by intros ->. Qed.

Lemma getitem_fst (d : Grid) k : fst (getitem d k) = get0 d k.
Proof. unfold getitem, get0. by destruct (d !! k). Qed.

Lemma index_Some {A : Type} (l : list A) i x : l !! i = Some x -> index l i = Ok x.
Proof. unfold index. by intros ->. Qed.

(** ** The fill loop computes the closed form *)

Lemma cell_0 eqb u v fc fr j :
  cell_with eqb u v fc fr 0 j = default 0%Z (fr !! j).
Proof. done. Qed.

Lemma cell_S_0 eqb u v fc fr i :
  cell_with eqb u v fc fr (S i) 0 = default 0%Z (fc !! S i).
Proof. done. Qed.

Lemma cell_S_S eqb u v fc fr i j :
  cell_with eqb u v fc fr (S i) (S j) =
  if same_with eqb u v i j
  then Z.max 0 (cell_with eqb u v fc fr i j + 1)
  else Z.max (cell_with eqb u v fc fr i (S j))
             (cell_with eqb u v fc fr (S i) j).
Proof. done. Qed.

Lemma construct_lcs_grid_char_eq u v fc fr :
  construct_lcs_grid u v fc fr = construct_lcs_grid_with char_eq u v fc fr.
Proof. done. Qed.

Lemma fill_cell_lookup (eqb : ascii -> ascii -> bool) (u v : list ascii) (i j : nat)
    (dp : Grid) a b x y z :
  u !! i = Some a -> v !! j = Some b ->
  dp !! (S i, S j) = None ->
  dp !! (i, j) = Some x ->
  dp !! (i, S j) = Some y ->
  dp !! (S i, j) = Some z ->
  exists dp', fill_cell_with eqb u v (S i) (S j) dp = Ok dp' /\
    forall k, dp' !! k =
      if decide (k = (S i, S j))
      then Some (if eqb a b then Z.max 0 (x + 1) else Z.max y z)
      else dp !! k.
Proof.
  intros Ha Hb Hn Hx Hy Hz. unfold fill_cell_with.
  replace (S i - 1) with i by lia.
  replace (S j - 1) with j by lia.
  rewrite (index_Some _ _ _ Ha), (index_Some _ _ _ Hb). simpl.
  destruct (eqb a b).
  - rewrite (getitem_None _ _ Hn).
    rewrite (getitem_Some (<[(S i, S j) := 0%Z]> dp) (i, j) x).
    2:{ rewrite lookup_insert_ne; [done|]. intros [=]. lia. }
    eexists. split; [done|]. intros k. case_decide as Hk.
    + subst k. by rewrite lookup_insert_eq.
    + by rewrite !lookup_insert_ne.
  - rewrite (getitem_Some _ _ _ Hy), (getitem_Some _ _ _ Hz).
    eexists. split; [done|]. intros k. case_decide as Hk.
    + subst k. by rewrite lookup_insert_eq.
    + by rewrite lookup_insert_ne.
Qed.

(** Case analysis on the guards of a grid description. *)
Ltac grid_cases :=
  repeat (case_bool_decide || case_decide); simplify_eq;
  try done; try lia; try (exfalso; lia).

Section construct.
Variable eqb : ascii -> ascii -> bool.
Variables (u v : list ascii) (first_col first_row : list Z).
Hypothesis Hcol : length u + 1 <= length first_col.
Hypothesis Hrow : length v + 1 <= length first_row.

Let m := length u.
Let n := length v.
Let c := cell_with eqb u v first_col first_row.

Lemma init_col_lookup :
  exists dp : Grid,
    for_each (range 0 (m + 1))
      (fun i (dp : Grid) => x ← index first_col i; Ok (<[(i, 0) := x]> dp)) ∅ = Ok dp /\
    forall a b, dp !! (a, b) =
      if bool_decide (b = 0 /\ a <= m) then Some (default 0%Z (first_col !! a)) else None.
Proof.
  destruct (for_each_inv
    (fun k (dp : Grid) => forall a b, dp !! (a, b) =
       if bool_decide (b = 0 /\ a < k) then Some (default 0%Z (first_col !! a)) else None)
    (range 0 (m + 1))
    (fun i (dp : Grid) => x ← index first_col i; Ok (<[(i, 0) := x]> dp)) ∅)
    as (dp & Hdp & Hinv).
  - intros a b. rewrite lookup_empty. grid_cases.
  - intros k x dp [-> Hk]%lookup_range IH. simpl.
    destruct (lookup_lt_is_Some_2 first_col k) as [y Hy]; [subst m; lia|].
    rewrite (index_Some _ _ _ Hy). simpl. eexists. split; [done|].
    intros a b. destruct (decide ((k, 0) = (a, b))) as [[= <- <-]|Hne].
    + rewrite lookup_insert_eq, Hy. grid_cases.
    + rewrite lookup_insert_ne, IH by done. grid_cases.
      assert (a = k) by lia. assert (b = 0) by lia. congruence.
  - exists dp. split; [done|]. intros a b. rewrite Hinv, length_range. grid_cases.
Qed.

Lemma init_row_lookup (dp0 : Grid) :
  (forall a b, dp0 !! (a, b) =
      if bool_decide (b = 0 /\ a <= m) then Some (default 0%Z (first_col !! a)) else None) ->
  exists dp : Grid,
    for_each (range 0 (n + 1))
      (fun j (dp : Grid) => x ← index first_row j; Ok (<[(0, j) := x]> dp)) dp0 = Ok dp /\
    forall a b, dp !! (a, b) =
      if bool_decide (a <= m /\ b <= n /\ (a = 0 \/ b = 0)) then Some (c a b) else None.
Proof.
  intros H0.
  destruct (for_each_inv
    (fun k (dp : Grid) => forall a b, dp !! (a, b) =
       if bool_decide (a = 0 /\ b < k) then Some (default 0%Z (first_row !! b))
       else dp0 !! (a, b))
    (range 0 (n + 1))
    (fun j (dp : Grid) => x ← index first_row j; Ok (<[(0, j) := x]> dp)) dp0)
    as (dp & Hdp & Hinv).
  - intros a b. grid_cases.
  - intros k x dp [-> Hk]%lookup_range IH. simpl.
    destruct (lookup_lt_is_Some_2 first_row k) as [y Hy]; [subst n; lia|].
    rewrite (index_Some _ _ _ Hy). simpl. eexists. split; [done|].
    intros a b. destruct (decide ((0, k) = (a, b))) as [[= <- <-]|Hne].
    + rewrite lookup_insert_eq, Hy. grid_cases.
    + rewrite lookup_insert_ne, IH by done. grid_cases.
      assert (b = k) by lia. assert (a = 0) by lia. congruence.
  - exists dp. split; [done|]. intros a b. rewrite Hinv, length_range, H0.
    subst c. destruct a as [|a], b as [|b]; simpl; grid_cases.
Qed.

Lemma fill_row_lookup (k : nat) (dp0 : Grid) :
  k < m ->
  (forall a b, dp0 !! (a, b) =
      if bool_decide (a <= m /\ b <= n /\ (a = 0 \/ b = 0 \/ a <= k))
      then Some (c a b) else None) ->
  exists dp : Grid,
    for_each (range 1 (n + 1))
      (fun j dp => fill_cell_with eqb u v (S k) j dp) dp0 = Ok dp /\
    forall a b, dp !! (a, b) =
      if bool_decide (a <= m /\ b <= n /\ (a = 0 \/ b = 0 \/ a <= S k))
      then Some (c a b) else None.
Proof.
  intros Hk H0.
  destruct (for_each_inv
    (fun k' (dp : Grid) => forall a b, dp !! (a, b) =
       if bool_decide (a <= m /\ b <= n /\
                       (a = 0 \/ b = 0 \/ a <= k \/ (a = S k /\ b <= k')))
       then Some (c a b) else None)
    (range 1 (n + 1)) (fun j dp => fill_cell_with eqb u v (S k) j dp) dp0)
    as (dp & Hdp & Hinv).
  - intros a b. rewrite H0. grid_cases.
  - intros k' x dp [-> Hk']%lookup_range IH. simpl.
    destruct (lookup_lt_is_Some_2 u k) as [ca Hca]; [done|].
    destruct (lookup_lt_is_Some_2 v k') as [cb Hcb]; [subst n; lia|].
    destruct (fill_cell_lookup eqb u v k k' dp ca cb (c k k') (c k (S k'))
                (c (S k) k') Hca Hcb) as (dp' & -> & Hdp').
    + rewrite IH. grid_cases.
    + rewrite IH. grid_cases.
    + rewrite IH. grid_cases.
    + rewrite IH. grid_cases.
    + exists dp'. split; [done|]. intros a b. rewrite Hdp'.
      destruct (decide ((a, b) = (S k, S k'))) as [Hab|Hab].
      * simplify_eq. subst c. rewrite cell_S_S. unfold same_with.
        rewrite Hca, Hcb. grid_cases.
      * rewrite IH. grid_cases.
        all: exfalso; apply Hab; f_equal; lia.
  - exists dp. split; [done|]. intros a b. rewrite Hinv, length_range. grid_cases.
Qed.

(** Every cell of the returned grid, and nothing outside it. *)
Lemma construct_lcs_grid_with_lookup :
  exists dp : Grid,
    construct_lcs_grid_with eqb u v first_col first_row = Ok dp /\
    forall a b, dp !! (a, b) =
      if bool_decide (a <= m /\ b <= n) then Some (c a b) else None.
Proof.
  unfold construct_lcs_grid_with. fold m n.
  destruct init_col_lookup as (dp1 & -> & H1). simpl.
  destruct (init_row_lookup dp1 H1) as (dp2 & -> & H2). simpl.
  destruct (for_each_inv
    (fun k (dp : Grid) => forall a b, dp !! (a, b) =
       if bool_decide (a <= m /\ b <= n /\ (a = 0 \/ b = 0 \/ a <= k))
       then Some (c a b) else None)
    (range 1 (m + 1))
    (fun i dp => for_each (range 1 (n + 1))
                   (fun j dp => fill_cell_with eqb u v i j dp) dp) dp2)
    as (dp & Hdp & Hinv).
  - intros a b. rewrite H2. grid_cases.
  - intros k x dp [-> Hk]%lookup_range IH. simpl.
    apply fill_row_lookup; [lia | done].
  - exists dp. split; [done|]. intros a b. rewrite Hinv, length_range. grid_cases.
Qed.
End construct.

Lemma construct_lcs_grid_lookup (u v : list ascii) (first_col first_row : list Z) :
  length u + 1 <= length first_col -> length v + 1 <= length first_row ->
  exists dp : Grid,
    construct_lcs_grid u v first_col first_row = Ok dp /\
    forall a b, dp !! (a, b) =
      if bool_decide (a <= length u /\ b <= length v)
      then Some (cell u v first_col first_row a b) else None.
Proof. apply (construct_lcs_grid_with_lookup char_eq). Qed.

(** ** Properties of the recurrence *)

Section cell_facts.
Variables (u v : list ascii) (first_col first_row : list Z).
Let c := cell u v first_col first_row.

Lemma cell_nonneg :
  (forall j, (0 <= c 0 j)%Z) -> (forall i, (0 <= c i 0)%Z) ->
  forall i j, (0 <= c i j)%Z.
Proof.
  intros Hr Hc. induction i as [|i IHi]; [done|].
  induction j as [|j IHj]; [done|].
  subst c. rewrite cell_S_S. destruct (same u v i j); lia.
Qed.

Lemma cell_le_max :
  (forall j, (c 0 j <= Z.of_nat j)%Z) -> (forall i, (c i 0 <= Z.of_nat i)%Z) ->
  forall i j, (c i j <= Z.of_nat (Nat.max i j))%Z.
Proof.
  intros Hr Hc. induction i as [|i IHi]; intros j.
  { specialize (Hr j). lia. }
  induction j as [|j IHj].
  { specialize (Hc (S i)). lia. }
  subst c. rewrite cell_S_S.
  specialize (IHi j) as IH1. specialize (IHi (S j)) as IH2.
  destruct (same u v i j); lia.
Qed.

Section steps.
Variables m n : nat.
Hypothesis Hnonneg : forall i j, (0 <= c i j)%Z.
Hypothesis Hrow : forall j, j < n -> unit_step (c 0 j) (c 0 (S j)).
Hypothesis Hcol : forall i, i < m -> unit_step (c i 0) (c (S i) 0).

Lemma cell_step_square i j :
  unit_step (c i j) (c i (S j)) ->
  unit_step (c i j) (c (S i) j) ->
  unit_step (c i (S j)) (c (S i) (S j)) /\
  unit_step (c (S i) j) (c (S i) (S j)).
Proof.
  unfold unit_step. intros Hh Hv. pose proof (Hnonneg i j).
  subst c. rewrite cell_S_S. destruct (same u v i j); lia.
Qed.

Lemma cell_steps i :
  i <= m ->
  (forall j, j < n -> unit_step (c i j) (c i (S j))) /\
  (i < m -> forall j, j <= n -> unit_step (c i j) (c (S i) j)).
Proof.
  induction i as [|i IHi]; intros Hi.
  - split; [done|]. intros Hm. induction j as [|j IHj]; intros Hj.
    + by apply Hcol.
    + apply cell_step_square; [apply Hrow; lia | apply IHj; lia].
  - destruct IHi as [IHr IHc]; [lia|]. specialize (IHc ltac:(lia)).
    assert (forall j, j < n ->
              unit_step (c (S i) j) (c (S i) (S j))) as Hr'.
    { intros j Hj. apply cell_step_square; [apply IHr; lia | apply IHc; lia]. }
    split; [done|]. intros Hm. induction j as [|j IHj]; intros Hj.
    + by apply Hcol.
    + apply cell_step_square; [apply Hr'; lia | apply IHj; lia].
Qed.

Lemma cell_step_right i j :
  i <= m -> j < n -> unit_step (c i j) (c i (S j)).
Proof. intros Hi Hj. by apply cell_steps. Qed.

Lemma cell_step_down i j :
  i < m -> j <= n -> unit_step (c i j) (c (S i) j).
Proof. intros Hi Hj. apply cell_steps; [lia | done | done]. Qed.

Lemma cell_mono_right i j k :
  i <= m -> j + k <= n -> (c i j <= c i (j + k) <= c i j + Z.of_nat k)%Z.
Proof.
  intros Hi. induction k as [|k IHk]; intros Hk.
  - rewrite Nat.add_0_r. lia.
  - replace (j + S k) with (S (j + k)) by lia.
    pose proof (cell_step_right i (j + k) Hi ltac:(lia)) as Hs.
    unfold unit_step in Hs. specialize (IHk ltac:(lia)). lia.
Qed.

Lemma cell_mono_down i j k :
  i + k <= m -> j <= n -> (c i j <= c (i + k) j <= c i j + Z.of_nat k)%Z.
Proof.
  intros Hk Hj. induction k as [|k IHk].
  - rewrite Nat.add_0_r. lia.
  - replace (i + S k) with (S (i + k)) by lia.
    pose proof (cell_step_down (i + k) j ltac:(lia) Hj) as Hs.
    unfold unit_step in Hs. specialize (IHk ltac:(lia)). lia.
Qed.

Lemma cell_mono i j i' j' :
  i <= i' -> i' <= m -> j <= j' -> j' <= n -> (c i j <= c i' j')%Z.
Proof.
  intros Hi Hi' Hj Hj'.
  pose proof (cell_mono_right i j (j' - j) ltac:(lia) ltac:(lia)) as H1.
  pose proof (cell_mono_down i j' (i' - i) ltac:(lia) ltac:(lia)) as H2.
  replace (j + (j' - j)) with j' in H1 by lia.
  replace (i + (i' - i)) with i' in H2 by lia. lia.
Qed.
End steps.
End cell_facts.

(** The recurrence reads its strings only through [same]. *)
Lemma cell_ext eqb eqb' (u v u' v' : list ascii) (fc fr fc' fr' : list Z) (m n : nat) :
  (forall a b, a < m -> b < n -> same_with eqb u v a b = same_with eqb' u' v' a b) ->
  (forall b, b <= n -> cell_with eqb u v fc fr 0 b = cell_with eqb' u' v' fc' fr' 0 b) ->
  (forall a, a <= m -> cell_with eqb u v fc fr a 0 = cell_with eqb' u' v' fc' fr' a 0) ->
  forall a b, a <= m -> b <= n ->
    cell_with eqb u v fc fr a b = cell_with eqb' u' v' fc' fr' a b.
Proof.
  intros Hs Hr Hc. induction a as [|a IHa]; intros b Ha Hb; [by apply Hr|].
  induction b as [|b IHb]; [by apply Hc|].
  rewrite !cell_S_S, Hs, IHa, IHa, IHb by lia. done.
Qed.

(** A block of a grid is the grid of the block's own strings, started
    from the block's top and left edges taken relative to its corner. *)
Lemma cell_block (U V u' v' : list ascii) (FC FR fc' fr' : list Z) (r0 c0 t : nat) :
  (forall a b, (0 <= cell U V FC FR a b)%Z) ->
  (forall a b, a <= t -> b <= t ->
     (cell U V FC FR r0 c0 <= cell U V FC FR (r0 + a) (c0 + b))%Z) ->
  (forall a b, a < t -> b < t -> same u' v' a b = same U V (r0 + a) (c0 + b)) ->
  (forall b, b <= t ->
     cell u' v' fc' fr' 0 b = (cell U V FC FR r0 (c0 + b) - cell U V FC FR r0 c0)%Z) ->
  (forall a, a <= t ->
     cell u' v' fc' fr' a 0 = (cell U V FC FR (r0 + a) c0 - cell U V FC FR r0 c0)%Z) ->
  forall a b, a <= t -> b <= t ->
    cell u' v' fc' fr' a b
    = (cell U V FC FR (r0 + a) (c0 + b) - cell U V FC FR r0 c0)%Z.
Proof.
  intros Hnn Hge Hs Hr Hc. induction a as [|a IHa]; intros b Ha Hb.
  { rewrite Nat.add_0_r. by apply Hr. }
  induction b as [|b IHb].
  { rewrite Nat.add_0_r. by apply Hc. }
  replace (r0 + S a) with (S (r0 + a)) by lia.
  replace (c0 + S b) with (S (c0 + b)) by lia.
  rewrite !cell_S_S, Hs by lia.
  rewrite (IHa b), (IHa (S b)) by lia.
  replace (S (r0 + a)) with (r0 + S a) by lia.
  rewrite IHb by lia.
  replace (r0 + S a) with (S (r0 + a)) by lia.
  replace (c0 + S b) with (S (c0 + b)) by lia.
  pose proof (Hnn (r0 + a) (c0 + b)).
  pose proof (Hge a b ltac:(lia) ltac:(lia)).
  destruct (same U V (r0 + a) (c0 + b)); lia.
Qed.

(** Columns past the last possible match repeat column [n]. *)
Lemma cell_pad_right (u v : list ascii) (fc fr : list Z) (m n : nat) :
  (forall a b, a < m -> n <= b -> same u v a b = false) ->
  (forall b, n <= b -> cell u v fc fr 0 b = cell u v fc fr 0 n) ->
  (forall a, a < m -> (cell u v fc fr a n <= cell u v fc fr (S a) n)%Z) ->
  forall k a, a <= m -> cell u v fc fr a (n + k) = cell u v fc fr a n.
Proof.
  intros Hs Hr Hmono. induction k as [|k IHk]; intros a Ha.
  { by rewrite Nat.add_0_r. }
  induction a as [|a IHa]; [apply Hr; lia|].
  replace (n + S k) with (S (n + k)) by lia.
  rewrite cell_S_S, Hs by lia.
  rewrite (IHk (S a)) by lia.
  replace (S (n + k)) with (n + S k) by lia.
  rewrite IHa by lia. specialize (Hmono a ltac:(lia)). lia.
Qed.

(** ** The two generators

    Both recursive generators enumerate the words of a given length over
    a fixed alphabet, appended to the prefix built so far. *)

Lemma flat_map_bind {A B : Type} (f : A -> list B) (l : list A) :
  flat_map f l = l ≫= f.
Proof. induction l as [|x l IH]; [done|]. simpl. by rewrite IH. Qed.

Section words.
Context {A : Type} (alphabet : list A) (gen : nat -> list A -> list (list A)).
Hypothesis gen_0 : forall cur, gen 0 cur = [cur].
Hypothesis gen_S : forall l cur,
  gen (S l) cur = flat_map (fun x => gen l (cur ++ [x])) alphabet.

Lemma elem_of_gen l cur w :
  w ∈ gen l cur <->
  exists w', w = cur ++ w' /\ length w' = l /\ Forall (fun x => x ∈ alphabet) w'.
Proof.
  revert cur. induction l as [|l IH]; intros cur.
  - rewrite gen_0, list_elem_of_singleton. split.
    + intros ->. exists []. by rewrite app_nil_r.
    + intros (w' & -> & Hl & _). destruct w'; [by rewrite app_nil_r|done].
  - rewrite gen_S, flat_map_bind, list_elem_of_bind. split.
    + intros (x & (w' & -> & Hl & Hall)%IH & Hx).
      exists (x :: w'). rewrite <- app_assoc. simpl. split_and!; [done|lia|].
      by constructor.
    + intros (w' & -> & Hl & Hall). destruct w' as [|x w']; [done|].
      apply Forall_cons in Hall as [Hx Hall]. exists x. split; [|done].
      apply IH. exists w'. rewrite <- app_assoc. simpl in *. split_and!; [done|lia|done].
Qed.

Lemma length_gen l cur : length (gen l cur) = length alphabet ^ l.
Proof.
  revert cur. induction l as [|l IH]; intros cur.
  - by rewrite gen_0.
  - rewrite gen_S, (flat_map_constant_length (c := length alphabet ^ l)).
    + simpl. lia.
    + intros x _. apply IH.
Qed.

Lemma NoDup_gen l cur : NoDup alphabet -> NoDup (gen l cur).
Proof.
  intros Hnd. revert cur. induction l as [|l IH]; intros cur.
  - rewrite gen_0. apply NoDup_singleton.
  - rewrite gen_S, flat_map_bind. apply NoDup_bind; [|auto|done].
    intros x1 x2 w _ _ (w1 & -> & _)%elem_of_gen (w2 & Heq & _)%elem_of_gen.
    rewrite <- !app_assoc in Heq. apply app_inv_head in Heq. by simplify_eq/=.
Qed.
End words.

Lemma elem_of_generate_strings t w :
  w ∈ generate_strings t [] <-> word_over bases t w.
Proof.
  rewrite (elem_of_gen bases generate_strings); [|done..]. unfold word_over.
  split; [by intros (w' & -> & ?)|]. intros ?. by exists w.
Qed.

Lemma elem_of_offset_vectors t w :
  w ∈ offset_vectors_generator t <-> word_over bits t w.
Proof.
  unfold offset_vectors_generator.
  rewrite (elem_of_gen bits offset_vectors_from); [|done..]. unfold word_over.
  split; [by intros (w' & -> & ?)|]. intros ?. by exists w.
Qed.

Lemma length_generate_strings t : length (generate_strings t []) = 5 ^ t.
Proof. by rewrite (length_gen bases generate_strings). Qed.

Lemma length_offset_vectors t : length (offset_vectors_generator t) = 2 ^ t.
Proof.
  unfold offset_vectors_generator. by rewrite (length_gen bits offset_vectors_from).
Qed.

Lemma NoDup_bases : NoDup bases.
Proof. compute_done. Qed.

Lemma NoDup_bits : NoDup bits.
Proof. compute_done. Qed.

Lemma NoDup_generate_strings t : NoDup (generate_strings t []).
Proof. apply (NoDup_gen bases generate_strings); [done..|apply NoDup_bases]. Qed.

Lemma NoDup_offset_vectors t : NoDup (offset_vectors_generator t).
Proof. apply (NoDup_gen bits offset_vectors_from); [done..|apply NoDup_bits]. Qed.

(** ** The block table *)

Lemma length_boundary t o : length (boundary t o) = t + 1.
Proof. unfold boundary. rewrite length_map, length_range. lia. Qed.

Lemma lookup_boundary t o i :
  i <= t -> boundary t o !! i = Some (sum_prefix o i).
Proof.
  intros Hi. unfold boundary. rewrite list_lookup_fmap.
  replace (range 0 (t + 1) !! i) with (Some i); [done|].
  symmetry. apply lookup_range. lia.
Qed.

Lemma for_each_adds {A : Type} (t : nat) (l : list A) (Q : A -> Key -> Prop)
    (step : A -> Table -> result Table) :
  (forall x, x ∈ l -> adds t (Q x) (step x)) ->
  adds t (fun k => exists x, x ∈ l /\ Q x k) (for_each l step).
Proof.
  induction l as [|x l IH]; intros Hstep g; simpl.
  - exists g. split; [done|]. intros k. right. split; [|done].
    intros (y & Hy & _). by apply not_elem_of_nil in Hy.
  - destruct (Hstep x ltac:(left) g) as (g1 & -> & H1). simpl.
    destruct (IH (fun y Hy => Hstep y (list_elem_of_further _ _ _ Hy)) g1)
      as (g2 & -> & H2).
    exists g2. split; [done|]. intros k.
    destruct (H2 k) as [[(y & Hy & HQ) Hk]|[Hn Hk]].
    + left. split; [|done]. exists y. split; [by right|done].
    + destruct (H1 k) as [[HQ Hk1]|[Hn1 Hk1]].
      * left. split; [exists x; split; [by left|done]|]. by rewrite Hk.
      * right. split; [|by rewrite Hk]. intros (y & Hy & HQ).
        apply elem_of_cons in Hy as [->|Hy]; [done|]. apply Hn. eauto.
Qed.

Lemma precompute_grids_lookup (t : nat) :
  exists grids : Table, precompute_grids t = Ok grids /\
    forall k, (valid_key t k /\ exists x, block_grid t k = Ok x /\ grids !! k = Some x)
              \/ (~ valid_key t k /\ grids !! k = None).
Proof.
  unfold precompute_grids.
  set (strings_t := generate_strings t []).
  set (offs := offset_vectors_generator t).
  match goal with |- exists grids, for_each ?l ?step ∅ = _ /\ _ =>
    assert (adds t (fun k => exists u, u ∈ strings_t /\ exists v, v ∈ strings_t /\
              exists r, r ∈ offs /\ exists c, c ∈ offs /\ k = (u, v, r, c))
              (for_each l step)) as Hadds
  end.
  { apply (for_each_adds t strings_t
             (fun u k => exists v, v ∈ strings_t /\
                exists r, r ∈ offs /\ exists c, c ∈ offs /\ k = (u, v, r, c))).
    intros u Hu.
    apply (for_each_adds t strings_t
             (fun v k => exists r, r ∈ offs /\ exists c, c ∈ offs /\ k = (u, v, r, c))).
    intros v Hv.
    apply (for_each_adds t offs
             (fun r k => exists c, c ∈ offs /\ k = (u, v, r, c))).
    intros r Hr.
    apply (for_each_adds t offs (fun c k => k = (u, v, r, c))).
    intros c Hc g.
    apply elem_of_generate_strings in Hu as [Hu _], Hv as [Hv _].
    destruct (construct_lcs_grid_lookup u v (boundary t c) (boundary t r))
      as (x & Hx & _); [rewrite length_boundary; lia..|].
    rewrite Hx. simpl. eexists. split; [done|]. intros k.
    destruct (decide (k = (u, v, r, c))) as [->|Hne].
    - left. split; [done|]. exists x. split; [done|]. by rewrite lookup_insert_eq.
    - right. split; [done|]. by rewrite lookup_insert_ne. }
  destruct (Hadds ∅) as (grids & Hg & Hk). exists grids. split; [done|].
  intros k. destruct (Hk k) as [[HQ Hx]|[HQ Hx]].
  - left. split; [|done]. destruct HQ as (u & Hu & v & Hv & r & Hr & c & Hc & ->).
    simpl. by rewrite <- !elem_of_generate_strings, <- !elem_of_offset_vectors.
  - right. rewrite Hx, lookup_empty. split; [|done]. intros Hv. apply HQ.
    destruct k as [[[u v] r] c]. destruct Hv as (Hu & Hv & Hr & Hc).
    exists u. split; [by apply elem_of_generate_strings|].
    exists v. split; [by apply elem_of_generate_strings|].
    exists r. split; [by apply elem_of_offset_vectors|].
    exists c. split; [by apply elem_of_offset_vectors|done].
Qed.

(** *** Counting the entries *)

Lemma NoDup_map_pair {A B : Type} (x : A) (k : list B) :
  NoDup k -> NoDup (map (pair x) k).
Proof.
  induction 1 as [|y k Hy Hk IH]; simpl; constructor; [|done].
  intros (z & [= ->] & Hz)%list_elem_of_In%in_map_iff.
  by apply Hy, list_elem_of_In.
Qed.

Lemma NoDup_list_prod {A B : Type} (l : list A) (k : list B) :
  NoDup l -> NoDup k -> NoDup (list_prod l k).
Proof.
  intros Hl Hk. induction Hl as [|x l Hx Hl IH]; simpl; [constructor|].
  apply NoDup_app. split_and!.
  - by apply NoDup_map_pair.
  - intros [a b] H1 H2.
    apply list_elem_of_In, in_map_iff in H1 as (y & [= <- <-] & _).
    apply list_elem_of_In, in_prod_iff in H2 as [H2 _].
    by apply Hx, list_elem_of_In.
  - done.
Qed.

Lemma elem_of_all_keys t k : k ∈ all_keys t <-> valid_key t k.
Proof.
  destruct k as [[[u v] r] c]. unfold all_keys, valid_key.
  rewrite list_elem_of_In, !in_prod_iff, <- !list_elem_of_In.
  rewrite !elem_of_generate_strings, !elem_of_offset_vectors. tauto.
Qed.

Lemma NoDup_all_keys t : NoDup (all_keys t).
Proof.
  unfold all_keys.
  auto using NoDup_list_prod, NoDup_generate_strings, NoDup_offset_vectors.
Qed.

Lemma length_all_keys t : length (all_keys t) = 5 ^ t * 5 ^ t * 2 ^ t * 2 ^ t.
Proof.
  unfold all_keys.
  by rewrite !length_prod, !length_generate_strings, !length_offset_vectors.
Qed.

Lemma precompute_grids_dom (t : nat) (grids : Table) :
  precompute_grids t = Ok grids -> dom grids = list_to_set (all_keys t).
Proof.
  intros Hg. destruct (precompute_grids_lookup t) as (g & Hg' & Hk).
  rewrite Hg in Hg'. injection Hg' as <-.
  apply set_eq. intros k. rewrite elem_of_dom, elem_of_list_to_set, elem_of_all_keys.
  destruct (Hk k) as [[Hv (x & _ & ->)]|[Hv ->]].
  - split; [done|]. by eexists.
  - split; [by intros [? [=]]|done].
Qed.

Lemma precompute_grids_size (t : nat) (grids : Table) :
  precompute_grids t = Ok grids -> size grids = 5 ^ t * 5 ^ t * 2 ^ t * 2 ^ t.
Proof.
  intros Hg. rewrite <- size_dom, (precompute_grids_dom t grids Hg).
  rewrite size_list_to_set by apply NoDup_all_keys. apply length_all_keys.
Qed.

(** ** The grid with all-zero boundaries *)

Section lcs_facts.
Variables u v : list ascii.

Lemma lcs_0_r a : lcs u v a 0 = 0%Z.
Proof. by destruct a. Qed.

Lemma lcs_0_l b : lcs u v 0 b = 0%Z.
Proof. done. Qed.

Lemma lcs_nonneg a b : (0 <= lcs u v a b)%Z.
Proof.
  apply cell_nonneg.
  - intros j. by rewrite cell_0.
  - intros i. pose proof (lcs_0_r i) as Hi. unfold lcs in Hi. by rewrite Hi.
Qed.

Lemma lcs_unit_col i : unit_step (cell u v [] [] i 0) (cell u v [] [] (S i) 0).
Proof.
  pose proof (lcs_0_r i) as Hi. pose proof (lcs_0_r (S i)) as Hi'.
  unfold lcs in Hi, Hi'. rewrite Hi, Hi'. by left.
Qed.

Lemma lcs_step_right a b : unit_step (lcs u v a b) (lcs u v a (S b)).
Proof.
  apply (cell_step_right u v [] [] a (S b)); [apply lcs_nonneg| | |lia..].
  - intros j _. by left.
  - intros i _. apply lcs_unit_col.
Qed.

Lemma lcs_step_down a b : unit_step (lcs u v a b) (lcs u v (S a) b).
Proof.
  apply (cell_step_down u v [] [] (S a) b); [apply lcs_nonneg| | |lia..].
  - intros j _. by left.
  - intros i _. apply lcs_unit_col.
Qed.

Lemma lcs_mono a b a' b' :
  a <= a' -> b <= b' -> (lcs u v a b <= lcs u v a' b')%Z.
Proof.
  intros Ha Hb.
  apply (cell_mono u v [] [] a' b'); [apply lcs_nonneg| | |lia..].
  - intros j _. by left.
  - intros i _. apply lcs_unit_col.
Qed.
End lcs_facts.

(** Any boundary lists holding zeros give the same grid. *)
Lemma cell_replicate_0 (u v : list ascii) (k l a b : nat) :
  cell u v (replicate k 0%Z) (replicate l 0%Z) a b = lcs u v a b.
Proof.
  assert (forall k i, default 0%Z (replicate k 0%Z !! i) = 0%Z) as Hz.
  { intros k' i. destruct (replicate k' 0%Z !! i) eqn:E; [|done].
    by apply lookup_replicate in E as [-> _]. }
  apply (cell_ext char_eq char_eq u v u v _ _ _ _ a b); [done| | |lia..].
  - intros b' _. rewrite !cell_0. by rewrite Hz.
  - intros [|a'] _; [rewrite !cell_0|rewrite !cell_S_0]; by rewrite Hz.
Qed.

(** ** Offset vectors and their prefix sums *)

Lemma sum_snoc (l : list Z) (x : Z) :
  foldr Z.add 0%Z (l ++ [x]) = (foldr Z.add 0%Z l + x)%Z.
Proof. induction l as [|y l IH]; simpl; lia. Qed.

Lemma sum_prefix_diffs (f : nat -> Z) (g : nat -> Z) (t b : nat) :
  (forall k, k < t -> f k = (g (S k) - g k)%Z) ->
  b <= t ->
  sum_prefix (map f (range 0 t)) b = (g b - g 0%nat)%Z.
Proof.
  intros Hf. unfold sum_prefix. induction b as [|b IH]; intros Hb.
  - rewrite take_0. simpl. lia.
  - rewrite (take_S_r _ _ (f b)).
    + rewrite sum_snoc, IH, Hf by lia. lia.
    + change (map f (range 0 t)) with (f <$> range 0 t). rewrite list_lookup_fmap.
      replace (range 0 t !! b) with (Some b); [done|].
      symmetry. apply lookup_range. lia.
Qed.

Lemma offsets_of_present (G : nat * nat -> Z) (F : Grid) (ks : list nat)
    (hi lo : nat -> nat * nat) :
  (forall k x, F !! k = Some x -> x = G k) ->
  (forall k, k ∈ ks -> is_Some (F !! hi k) /\ is_Some (F !! lo k)) ->
  offsets_of F ks hi lo = (map (fun k => (G (hi k) - G (lo k))%Z) ks, F).
Proof.
  intros Hag. induction ks as [|k ks IH]; intros Hks; simpl; [done|].
  destruct (Hks k ltac:(left)) as [[x Hx] [y Hy]].
  rewrite (getitem_Some _ _ _ Hx), (getitem_Some _ _ _ Hy).
  rewrite IH by (intros k' Hk'; apply Hks; by right).
  by rewrite (Hag _ _ Hx), (Hag _ _ Hy).
Qed.

(** ** The assembly loop

    [U] and [V] are the padded strings, of length [q * t]; [grids0] is a
    table as [precompute_grids t] returns it. *)

Section assembly.
Variables (U V : list ascii) (t q : nat) (grids0 : Table).
Hypothesis Ht : 0 < t.
Hypothesis HU : length U = q * t.
Hypothesis HV : length V = q * t.
Hypothesis HUb : Forall (fun x => x ∈ bases) U.
Hypothesis HVb : Forall (fun x => x ∈ bases) V.
Hypothesis Hgrids : forall k,
   (valid_key t k /\ exists x, block_grid t k = Ok x /\ grids0 !! k = Some x)
   \/ (~ valid_key t k /\ grids0 !! k = None).

Let G (a b : nat) : Z := lcs U V a b.
Let Gp (k : nat * nat) : Z := G k.1 k.2.

(** The key of block [(i, j)] when the grid around it is right. *)
Definition key_at (i j : nat) : Key :=
  (slice U (i * t) ((i + 1) * t), slice V (j * t) ((j + 1) * t),
   map (fun k => Z.sub (Gp (i * t, j * t + k + 1)) (Gp (i * t, j * t + k))) (range 0 t),
   map (fun k => Z.sub (Gp (i * t + k + 1, j * t)) (Gp (i * t + k, j * t))) (range 0 t)).

Lemma block_bound i : i < q -> (i + 1) * t <= q * t.
Proof. intros Hi. apply Nat.mul_le_mono_r. lia. Qed.

Lemma slice_word (W : list ascii) i :
  length W = q * t -> Forall (fun x => x ∈ bases) W -> i < q ->
  word_over bases t (slice W (i * t) ((i + 1) * t)).
Proof.
  intros HW HWb Hi. pose proof (block_bound i Hi). unfold slice. split.
  - rewrite length_take, length_drop. lia.
  - by apply Forall_take, Forall_drop.
Qed.

Lemma lookup_slice (W : list ascii) i a :
  a < t -> slice W (i * t) ((i + 1) * t) !! a = W !! (i * t + a).
Proof.
  intros Ha. unfold slice. rewrite lookup_take_lt by lia. apply lookup_drop.
Qed.

Lemma diffs_word (f : nat -> Z) :
  (forall k, k < t -> f k = 0%Z \/ f k = 1%Z) ->
  word_over bits t (map f (range 0 t)).
Proof.
  intros Hf. split.
  - rewrite length_map, length_range. lia.
  - apply Forall_forall. intros x (k & <- & Hk)%list_elem_of_In%in_map_iff.
    apply list_elem_of_In, list_elem_of_lookup in Hk as [n [-> Hn]%lookup_range].
    unfold bits. destruct (Hf (0 + n) ltac:(lia)) as [-> | ->]; set_solver.
Qed.

Lemma valid_key_at i j : i < q -> j < q -> valid_key t (key_at i j).
Proof.
  intros Hi Hj. unfold key_at, valid_key. split_and!.
  - by apply slice_word.
  - by apply slice_word.
  - apply diffs_word. intros k _. unfold Gp, G. simpl.
    replace (j * t + k + 1) with (S (j * t + k)) by lia.
    destruct (lcs_step_right U V (i * t) (j * t + k)) as [-> | ->]; lia.
  - apply diffs_word. intros k _. unfold Gp, G. simpl.
    replace (i * t + k + 1) with (S (i * t + k)) by lia.
    destruct (lcs_step_down U V (i * t + k) (j * t)) as [-> | ->]; lia.
Qed.

Lemma block_row_sums i j b :
  b <= t ->
  sum_prefix (key_at i j).1.2 b = (G (i * t) (j * t + b) - G (i * t) (j * t))%Z.
Proof.
  intros Hb. simpl.
  rewrite (sum_prefix_diffs _ (fun k => G (i * t) (j * t + k))); [|intros k _|done].
  - by rewrite Nat.add_0_r.
  - unfold Gp. simpl. by replace (j * t + k + 1) with (j * t + S k) by lia.
Qed.

Lemma block_col_sums i j a :
  a <= t ->
  sum_prefix (key_at i j).2 a = (G (i * t + a) (j * t) - G (i * t) (j * t))%Z.
Proof.
  intros Ha. simpl.
  rewrite (sum_prefix_diffs _ (fun k => G (i * t + k) (j * t))); [|intros k _|done].
  - by rewrite Nat.add_0_r.
  - unfold Gp. simpl. by replace (i * t + k + 1) with (i * t + S k) by lia.
Qed.

(** The table entry of a block is the block of the whole grid, taken
    relative to the block's top-left corner. *)
Lemma block_grid_at (i j : nat) (x : Grid) :
  i < q -> j < q -> block_grid t (key_at i j) = Ok x ->
  forall a b, a <= t -> b <= t ->
    x !! (a, b) = Some (G (i * t + a) (j * t + b) - G (i * t) (j * t))%Z.
Proof.
  intros Hi Hj Hx a b Ha Hb.
  pose proof (slice_word U i HU HUb Hi) as [HlU _].
  pose proof (slice_word V j HV HVb Hj) as [HlV _].
  pose proof (block_row_sums i j) as Hrs. pose proof (block_col_sums i j) as Hcs.
  unfold block_grid, key_at in Hx, Hrs, Hcs. simpl in Hrs, Hcs.
  match type of Hx with
  | construct_lcs_grid ?su ?sv ?fc ?fr = _ =>
      destruct (construct_lcs_grid_lookup su sv fc fr) as (dp & Hdp & Hl);
        [rewrite length_boundary; lia..|]
  end.
  rewrite Hdp in Hx. injection Hx as <-.
  rewrite Hl, bool_decide_eq_true_2 by lia. f_equal.
  apply (cell_block U V _ _ [] [] _ _ (i * t) (j * t) t); try done.
  - apply lcs_nonneg.
  - intros a' b' _ _. apply lcs_mono; lia.
  - intros a' b' Ha' Hb'. unfold same_with. by rewrite !lookup_slice.
  - intros b' Hb'. rewrite cell_0, lookup_boundary by done. simpl. by apply Hrs.
  - intros [|a'] Ha'.
    + rewrite cell_0, lookup_boundary by lia. simpl. rewrite Hrs by lia.
      rewrite !Nat.add_0_r. unfold G. lia.
    + rewrite cell_S_0, lookup_boundary by done. simpl. by apply Hcs.
Qed.

(** *** Invariants of the main grid *)

(** Every stored score is the score of the whole grid at that cell. *)
Definition agrees (F : Grid) : Prop := forall k x, F !! k = Some x -> x = Gp k.

(** Block [(i', j')] comes before block [(i, j)] in the loop order. *)
Definition processed (i j i' j' : nat) : Prop := i' < i \/ (i' = i /\ j' < j).

(** Row 0, column 0, and the right and bottom edges of the blocks
    processed so far are stored. *)
Definition has_edges (i j : nat) (F : Grid) : Prop :=
  (forall b, b <= q * t -> is_Some (F !! (0, b))) /\
  (forall a, a <= q * t -> is_Some (F !! (a, 0))) /\
  (forall i' j' k, processed i j i' j' -> j' < q -> k <= t ->
     is_Some (F !! (i' * t + k, (j' + 1) * t)) /\
     is_Some (F !! ((i' + 1) * t, j' * t + k))).

Lemma agrees_insert (F : Grid) k x : agrees F -> x = Gp k -> agrees (<[k := x]> F).
Proof.
  intros Hag -> k' x'. destruct (decide (k = k')) as [->|Hne].
  - rewrite lookup_insert_eq. by intros [= <-].
  - rewrite lookup_insert_ne by done. apply Hag.
Qed.

Lemma present_insert (F : Grid) k k' x :
  is_Some (F !! k) -> is_Some (<[k' := x]> F !! k).
Proof. intros H. apply lookup_insert_is_Some'. by right. Qed.

Lemma has_edges_insert (i j : nat) (F : Grid) k x :
  has_edges i j F -> has_edges i j (<[k := x]> F).
Proof.
  intros (Hr & Hc & He). split_and!.
  - intros b Hb. by apply present_insert, Hr.
  - intros a Ha. by apply present_insert, Hc.
  - intros i' j' k' Hp Hj Hk. destruct (He i' j' k' Hp Hj Hk).
    split; by apply present_insert.
Qed.

Lemma top_edge (i j : nat) (F : Grid) k :
  has_edges i j F -> i < q -> j < q -> k <= t -> is_Some (F !! (i * t, j * t + k)).
Proof.
  intros (Hr & Hc & He) Hi Hj Hk. destruct i as [|i].
  - simpl. apply Hr. pose proof (block_bound j Hj). lia.
  - replace (S i * t) with ((i + 1) * t) by lia.
    apply He; [left; lia | done..].
Qed.

Lemma left_edge (i j : nat) (F : Grid) k :
  has_edges i j F -> i < q -> j < q -> k <= t -> is_Some (F !! (i * t + k, j * t)).
Proof.
  intros (Hr & Hc & He) Hi Hj Hk. destruct j as [|j].
  - simpl. apply Hc. pose proof (block_bound i Hi). lia.
  - replace (S j * t) with ((j + 1) * t) by lia.
    apply He; [right; lia | lia | done].
Qed.

Lemma write_edges (i j : nat) (x F : Grid) :
  i < q -> j < q ->
  (forall a b, a <= t -> b <= t ->
     x !! (a, b) = Some (G (i * t + a) (j * t + b) - G (i * t) (j * t))%Z) ->
  agrees F -> has_edges i j F ->
  let F' :=
    foldl (fun (F : Grid) k =>
             let F := <[(i * t + k, (j + 1) * t) := Z.add (Gp (i * t, j * t)) (get0 x (k, t))]> F in
             <[((i + 1) * t, j * t + k) := Z.add (Gp (i * t, j * t)) (get0 x (t, k))]> F)
          F (range 0 (t + 1)) in
  agrees F' /\ has_edges i (j + 1) F'.
Proof.
  intros Hi Hj Hx Hag He F'.
  assert (agrees F' /\ has_edges i j F' /\
          forall k, k < t + 1 - 0 ->
            is_Some (F' !! (i * t + k, (j + 1) * t)) /\
            is_Some (F' !! ((i + 1) * t, j * t + k))) as (Hag' & He' & Hnew).
  { subst F'.
    apply (foldl_range_inv
      (fun n (F : Grid) => agrees F /\ has_edges i j F /\
         forall k, k < n ->
           is_Some (F !! (i * t + k, (j + 1) * t)) /\
           is_Some (F !! ((i + 1) * t, j * t + k)))).
    - split_and!; [done..|]. intros k Hk. lia.
    - intros n F0 Hn (Hag0 & He0 & Hnew0). simpl.
      split_and!.
      + apply agrees_insert; [apply agrees_insert; [done|]|].
        * unfold get0. rewrite Hx by lia. unfold Gp. simpl.
          replace ((j + 1) * t) with (j * t + t) by lia. lia.
        * unfold get0. rewrite Hx by lia. unfold Gp. simpl.
          replace ((i + 1) * t) with (i * t + t) by lia. lia.
      + by do 2 apply has_edges_insert.
      + intros k Hk. destruct (decide (k = n)) as [->|Hne].
        * split.
          -- apply present_insert. apply lookup_insert_is_Some'. by left.
          -- apply lookup_insert_is_Some'. by left.
        * destruct (Hnew0 k ltac:(lia)). split; by do 2 apply present_insert. }
  split; [done|]. destruct He' as (Hr & Hc & He'). split_and!; [done..|].
  intros i' j' k [Hp|[-> Hp]] Hj' Hk.
  - apply He'; [by left|done..].
  - destruct (decide (j' = j)) as [->|Hne].
    + apply Hnew. lia.
    + apply He'; [right; lia|done..].
Qed.

(** *** One block *)

Lemma block_step_spec (i j : nat) (st : state) :
  i < q -> j < q -> st_grids st = grids0 ->
  agrees (st_F st) -> has_edges i j (st_F st) ->
  exists F' : Grid,
    block_step U V t i j st = State F' grids0 (st_keys st ++ [key_at i j]) /\
    agrees F' /\ has_edges i (j + 1) F'.
Proof.
  intros Hi Hj Hg Hag He. unfold block_step.
  rewrite (offsets_of_present Gp (st_F st)); [|done|].
  2:{ intros k [n [-> Hn]%lookup_range]%list_elem_of_lookup. split.
      - replace (j * t + (0 + n) + 1) with (j * t + (n + 1)) by lia.
        apply (top_edge i j); [done..|lia].
      - apply (top_edge i j); [done..|lia]. }
  rewrite (offsets_of_present Gp (st_F st)); [|done|].
  2:{ intros k [n [-> Hn]%lookup_range]%list_elem_of_lookup. split.
      - replace (i * t + (0 + n) + 1) with (i * t + (n + 1)) by lia.
        apply (left_edge i j); [done..|lia].
      - apply (left_edge i j); [done..|lia]. }
  unfold table_getitem. rewrite Hg.
  match goal with |- context [grids0 !! ?k] => change k with (key_at i j) end.
  destruct (Hgrids (key_at i j)) as [(_ & x & Hx & ->)|[Hn _]];
    [|destruct Hn; by apply valid_key_at].
  destruct (top_edge i j (st_F st) 0 He Hi Hj ltac:(lia)) as [o Ho].
  rewrite Nat.add_0_r in Ho. rewrite (getitem_Some _ _ _ Ho), (Hag _ _ Ho).
  eexists. split; [done|].
  apply write_edges; [done..| |done|done].
  by apply block_grid_at.
Qed.

(** *** The two loops *)

Definition Inv (i j : nat) (st : state) : Prop :=
  st_grids st = grids0 /\ agrees (st_F st) /\ has_edges i j (st_F st) /\
  Forall (valid_key t) (st_keys st) /\
  length (st_keys st) = i * q + j.

Lemma block_row_spec (i : nat) (st : state) :
  i < q -> Inv i 0 st ->
  Inv (i + 1) 0
    (foldl (fun st j => block_step U V t i j st) st (range 0 q)).
Proof.
  intros Hi H0.
  assert (Inv i (q - 0)
            (foldl (fun st j => block_step U V t i j st) st (range 0 q))) as H.
  { apply (foldl_range_inv (fun j st => Inv i j st)); [done|].
    intros j st' Hj (Hg & Hag & He & Hk & Hl). simpl.
    destruct (block_step_spec i j st') as (F' & -> & Hag' & He'); [lia|lia|done..|].
    split_and!; simpl; [done..| | |].
    - by replace (S j) with (j + 1) by lia.
    - apply Forall_app. split; [done|]. apply Forall_singleton.
      apply valid_key_at; lia.
    - rewrite length_app. simpl. lia. }
  destruct H as (Hg & Hag & (Hr & Hc & He) & Hk & Hl).
  split_and!; [done..| |done|lia].
  split_and!; [done..|]. intros i' j' k Hp Hj' Hk'.
  apply He; [|done..]. destruct Hp as [Hp|[-> Hp]]; [|lia].
  destruct (decide (i' = i)) as [->|]; [right; lia|left; lia].
Qed.

Lemma assemble_spec (st : state) :
  Inv 0 0 st -> Inv q 0 (assemble U V t q st).
Proof.
  intros H0. unfold assemble.
  assert (Inv (q - 0) 0
    (foldl (fun st i => foldl (fun st j => block_step U V t i j st) st (range 0 q))
           st (range 0 q))) as H.
  { apply (foldl_range_inv (fun i st => Inv i 0 st)); [done|].
    intros i st' Hi Hst. simpl.
    replace (S i) with (i + 1) by lia. apply block_row_spec; [lia|done]. }
  by rewrite Nat.sub_0_r in H.
Qed.

(** *** The initial grid and the final read *)

Lemma init_F_lookup (n a b : nat) :
  init_F n !! (a, b) =
  if bool_decide ((a = 0 /\ b <= n) \/ (b = 0 /\ a <= n)) then Some 0%Z else None.
Proof.
  unfold init_F.
  set (P := fun k (F : Grid) => forall a b, F !! (a, b) =
      if bool_decide ((a = 0 /\ b < k) \/ (b = 0 /\ a < k)) then Some 0%Z else None).
  assert (P (n + 1 - 0)
    (foldl (fun (F : Grid) i => <[(0, i) := 0%Z]> (<[(i, 0) := 0%Z]> F)) ∅
           (range 0 (n + 1)))) as H.
  { apply (foldl_range_inv P); subst P; simpl.
    - intros a' b'. rewrite lookup_empty. grid_cases.
    - intros k F Hk IH a' b'.
      destruct (decide ((0, k) = (a', b'))) as [[= <- <-]|Hne1].
      { rewrite lookup_insert_eq. grid_cases. }
      rewrite lookup_insert_ne by done.
      destruct (decide ((k, 0) = (a', b'))) as [[= <- <-]|Hne2].
      { rewrite lookup_insert_eq. grid_cases. }
      rewrite lookup_insert_ne, IH by done. grid_cases.
      all: exfalso; destruct (decide (a' = 0)) as [->|];
        [apply Hne1; f_equal; lia | apply Hne2; f_equal; lia]. }
  subst P. simpl in H.
  rewrite H. grid_cases.
Qed.

Lemma Inv_init : Inv 0 0 (State (init_F (q * t)) grids0 []).
Proof.
  split_and!; simpl; [done| | |done|done].
  - intros [a b] x. rewrite init_F_lookup. case_bool_decide as H; [|done].
    intros [= <-]. unfold Gp, G. simpl.
    destruct H as [[-> _]|[-> _]]; [done|by rewrite lcs_0_r].
  - split_and!.
    + intros b Hb. rewrite init_F_lookup, bool_decide_eq_true_2; [done|lia].
    + intros a Ha. rewrite init_F_lookup, bool_decide_eq_true_2; [done|lia].
    + intros i' j' k [Hp|[_ Hp]]; lia.
Qed.

Lemma last_column_present (F : Grid) (m : nat) :
  has_edges q 0 F -> m <= q * t -> is_Some (F !! (m, q * t)).
Proof.
  intros (Hr & Hc & He) Hm.
  destruct (decide (m = 0)) as [->|Hm0]; [by apply Hr|].
  assert (0 < q) as Hq by (destruct q; simpl in *; lia).
  set (i' := (m - 1) / t). set (k := m - i' * t).
  assert (i' * t <= m - 1) as H1.
  { subst i'. rewrite Nat.mul_comm. apply Nat.Div0.mul_div_le. }
  assert (m - 1 < (i' + 1) * t) as H2.
  { subst i'. pose proof (Nat.mul_succ_div_gt (m - 1) t ltac:(lia)). lia. }
  assert (i' < q) as H3.
  { destruct (decide (i' < q)); [done|]. exfalso.
    assert (q * t <= i' * t) by (apply Nat.mul_le_mono_r; lia). lia. }
  destruct (He i' (q - 1) k ltac:(left; lia) ltac:(lia) ltac:(subst k; lia)) as [H _].
  replace (i' * t + k) with m in H by (subst k; lia).
  by replace (q - 1 + 1) with q in H by lia.
Qed.
End assembly.

(** ** Padding *)

Lemma pow2_loop_spec (fuel p bound : nat) :
  1 <= p -> bound <= p + fuel ->
  bound <= pow2_loop fuel p bound /\
  exists k, pow2_loop fuel p bound = p * 2 ^ k /\ (k = 0 \/ p * 2 ^ (k - 1) < bound).
Proof.
  revert p. induction fuel as [|fuel IH]; intros p Hp Hb; simpl.
  - split; [lia|]. exists 0. simpl. split; [lia|by left].
  - destruct (Nat.ltb_spec p bound) as [Hlt|Hge].
    + destruct (IH (p * 2)) as (H1 & k & Hk & Hmin); [lia..|].
      split; [done|]. exists (S k). split.
      * rewrite Hk. simpl. lia.
      * right. simpl. rewrite Nat.sub_0_r. destruct Hmin as [-> | Hmin].
        -- simpl. lia.
        -- destruct k as [|k]; simpl in *; [lia|]. rewrite Nat.sub_0_r in Hmin. lia.
    + split; [lia|]. exists 0. simpl. split; [lia|by left].
Qed.

(** The loop leaves through its test, at the least power of two that
    is no smaller than both lengths. *)
Lemma padded_length_exit (m n : nat) :
  Nat.max m n <= padded_length m n /\
  exists k, padded_length m n = 2 ^ k /\ (k = 0 \/ 2 ^ (k - 1) < Nat.max m n).
Proof.
  unfold padded_length.
  destruct (pow2_loop_spec (Nat.max m n) 1 (Nat.max m n)) as (H1 & k & Hk & Hmin);
    [lia..|].
  split; [done|]. exists k. rewrite Hk. split; [lia|].
  destruct Hmin as [?|?]; [by left|right; lia].
Qed.

Lemma padded_length_pos (m n : nat) : 0 < padded_length m n.
Proof.
  destruct (padded_length_exit m n) as (_ & k & -> & _).
  pose proof (Nat.pow_nonzero 2 k). lia.
Qed.

Lemma length_ljust (u : list ascii) (w : nat) (c : ascii) :
  length u <= w -> length (ljust u w c) = w.
Proof. intros H. unfold ljust. rewrite length_app, length_replicate. lia. Qed.

Lemma lookup_ljust_l (u : list ascii) (w : nat) (c : ascii) (i : nat) :
  i < length u -> ljust u w c !! i = u !! i.
Proof. intros H. unfold ljust. by apply lookup_app_l. Qed.

Lemma lookup_ljust_r (u : list ascii) (w : nat) (c : ascii) (i : nat) (x : ascii) :
  length u <= i -> ljust u w c !! i = Some x -> x = c.
Proof.
  intros H. unfold ljust. rewrite lookup_app_r by done.
  by intros [-> _]%lookup_replicate.
Qed.

Lemma alphabet_bases x : x ∈ alphabet -> x ∈ bases.
Proof. unfold alphabet, bases. rewrite !elem_of_cons. tauto. Qed.

Lemma alphabet_not_sentinel x : x ∈ alphabet -> x <> "$"%char.
Proof.
  unfold alphabet. intros H ->. rewrite !elem_of_cons, elem_of_nil in H.
  destruct H as [H|[H|[H|[H|[]]]]]; discriminate.
Qed.

Lemma ljust_bases (u : list ascii) (w : nat) :
  Forall (fun x => x ∈ alphabet) u -> Forall (fun x => x ∈ bases) (ljust u w "$").
Proof.
  intros H. unfold ljust. apply Forall_app. split.
  - eapply Forall_impl; [done|]. apply alphabet_bases.
  - apply Forall_replicate. unfold bases. rewrite !elem_of_cons. tauto.
Qed.

(** Reading the padded grid at row [len(u)] gives the score of the
    unpadded strings: no row of [u] matches the padding of [v]. *)
Lemma lcs_ljust (u v : list ascii) (w : nat) :
  Forall (fun x => x <> "$"%char) u -> length u <= w -> length v <= w ->
  lcs (ljust u w "$") (ljust v w "$") (length u) w = lcs u v (length u) (length v).
Proof.
  intros Hu Hlu Hlv.
  set (U := ljust u w "$"). set (V := ljust v w "$").
  transitivity (lcs U V (length u) (length v)).
  - unfold lcs.
    replace (cell U V [] [] (length u) w)
      with (cell U V [] [] (length u) (length v + (w - length v)))
      by (f_equal; lia).
    apply (cell_pad_right U V [] [] (length u) (length v)); [| |intros a _|done].
    + intros a b Ha Hb. unfold same_with, U.
      rewrite lookup_ljust_l by done.
      destruct (lookup_lt_is_Some_2 u a Ha) as [x Hx]. rewrite Hx.
      destruct (V !! b) as [y|] eqn:Hy; [|done].
      apply lookup_ljust_r in Hy as ->; [|done].
      unfold char_eq. apply bool_decide_eq_false_2.
      by apply (Forall_lookup_1 _ _ _ _ Hu Hx).
    + done.
    + apply (lcs_mono U V a (length v) (S a) (length v)); lia.
  - apply (cell_ext char_eq char_eq U V u v _ _ _ _ (length u) (length v));
      [|done| |done..].
    + intros a b Ha Hb. unfold same_with, U, V. by rewrite !lookup_ljust_l.
    + intros a _. by destruct a.
Qed.

Lemma construct_zero_lookup (u v : list ascii) (k l a b : nat) :
  length u + 1 <= k -> length v + 1 <= l -> a <= length u -> b <= length v ->
  exists dp : Grid,
    construct_lcs_grid u v (replicate k 0%Z) (replicate l 0%Z) = Ok dp /\
    fst (getitem dp (a, b)) = lcs u v a b.
Proof.
  intros Hk Hl Ha Hb.
  destruct (construct_lcs_grid_lookup u v (replicate k 0%Z) (replicate l 0%Z))
    as (dp & Hdp & Hlk); [by rewrite length_replicate..|].
  exists dp. split; [done|].
  rewrite getitem_fst. unfold get0.
  rewrite Hlk, bool_decide_eq_true_2 by done. simpl. apply cell_replicate_0.
Qed.

Lemma naive_lcs_lcs (u v : list ascii) :
  naive_lcs u v = Ok (lcs u v (length u) (length v)).
Proof.
  unfold naive_lcs.
  destruct (construct_zero_lookup u v (length u + 1) (length v + 1)
              (length u) (length v)) as (dp & -> & <-); [lia..|].
  done.
Qed.

(** ** The whole run *)

(** The assembly loop as [four_russians] starts it. *)
Lemma run_blocks (U V : list ascii) (t q N m : nat) (grids : Table) :
  0 < t -> N = q * t -> length U = N -> length V = N ->
  Forall (fun x => x ∈ bases) U -> Forall (fun x => x ∈ bases) V ->
  precompute_grids t = Ok grids -> m <= N ->
  let st := assemble U V t q (State (init_F N) grids []) in
  st_grids st = grids /\
  Forall (valid_key t) (st_keys st) /\
  length (st_keys st) = q * q /\
  st_F st !! (m, N) = Some (lcs U V m N).
Proof.
  intros Ht -> HU HV HUb HVb Hg Hm st.
  destruct (precompute_grids_lookup t) as (g & Hg' & Hk).
  rewrite Hg in Hg'. injection Hg' as <-.
  destruct (assemble_spec U V t q grids Ht HU HV HUb HVb Hk _
              (Inv_init U V t q grids Ht HU HV)) as (H1 & H2 & H3 & H4 & H5).
  fold st in H1, H2, H3, H4, H5. split_and!; [done|done|lia|].
  destruct (last_column_present U V t q Ht HU HV (st_F st) m H3 Hm) as [x Hx].
  rewrite Hx. f_equal. apply (H2 _ _ Hx).
Qed.

Lemma valid_key_present (t : nat) (grids : Table) (key : Key) :
  precompute_grids t = Ok grids -> valid_key t key -> is_Some (grids !! key).
Proof.
  intros Hg Hv. destruct (precompute_grids_lookup t) as (g & Hg' & Hk).
  rewrite Hg in Hg'. injection Hg' as <-.
  destruct (Hk key) as [(_ & x & _ & ->)|[Hn _]]; [by eexists|done].
Qed.

Section run.
Variables u v : list ascii.
Let m := length u.
Let n := padded_length (length u) (length v).
Let U := ljust u n "$".
Let V := ljust v n "$".
Let t := block_size n.

Lemma padded_bounds : length u <= n /\ length v <= n /\ 0 < n.
Proof.
  unfold n. pose proof (padded_length_exit (length u) (length v)) as [H _].
  pose proof (padded_length_pos (length u) (length v)). lia.
Qed.

Lemma length_U : length U = n.
Proof. apply length_ljust, padded_bounds. Qed.

Lemma length_V : length V = n.
Proof. apply length_ljust, padded_bounds. Qed.

(** The small case: no blocks, the plain grid of the padded strings. *)
Lemma four_russians_small :
  t = 0 -> four_russians u v = Ok (lcs U V m n).
Proof.
  intros Ht0. unfold four_russians. fold n U V t m. rewrite Ht0. simpl.
  destruct (construct_zero_lookup U V (n + 1) (n + 1) m n)
    as (dp & -> & <-); [rewrite ?length_U, ?length_V; pose proof padded_bounds; unfold m; lia..|].
  done.
Qed.

(** The assertion: raised after the table is built, before any block. *)
Lemma four_russians_assert :
  t <> 0 -> n mod t <> 0 -> four_russians u v = Raise AssertionError.
Proof.
  intros Ht0 Hmod. unfold four_russians. fold n U V t m.
  rewrite (proj2 (Nat.eqb_neq t 0) Ht0).
  destruct (precompute_grids_lookup t) as (grids & -> & _). simpl.
  by rewrite bool_decide_eq_false_2.
Qed.

(** Whatever the symbols, a run that passes the assertion returns. *)
Lemma four_russians_returns :
  t = 0 \/ n mod t = 0 -> exists z, four_russians u v = Ok z.
Proof.
  intros Hcase. destruct (decide (t = 0)) as [Ht0|Ht0].
  { rewrite four_russians_small by done. by eexists. }
  destruct Hcase as [?|Hmod]; [done|].
  unfold four_russians. fold n U V t m.
  rewrite (proj2 (Nat.eqb_neq t 0) Ht0).
  destruct (precompute_grids_lookup t) as (grids & -> & _). simpl.
  rewrite bool_decide_eq_true_2 by done. by eexists.
Qed.

(** The block case on inputs over the alphabet. *)
Lemma four_russians_blocks (grids : Table) :
  Forall (fun x => x ∈ alphabet) u -> Forall (fun x => x ∈ alphabet) v ->
  t <> 0 -> n mod t = 0 -> precompute_grids t = Ok grids ->
  let st := assemble U V t (n / t) (State (init_F n) grids []) in
  four_russians u v = Ok (lcs U V m n) /\
  st_grids st = grids /\
  Forall (valid_key t) (st_keys st) /\
  length (st_keys st) = (n / t) * (n / t).
Proof.
  intros Hu Hv Ht0 Hmod Hg st.
  assert (n = n / t * t) as Hn.
  { rewrite Nat.mul_comm. by apply Nat.Div0.div_exact. }
  destruct (run_blocks U V t (n / t) n m grids) as (H1 & H2 & H3 & H4);
    [lia|done|apply length_U|apply length_V|by apply ljust_bases..|done| |].
  { unfold m. apply padded_bounds. }
  fold st in H1, H2, H3, H4. split_and!; [|done..].
  unfold four_russians. fold n U V t m.
  rewrite (proj2 (Nat.eqb_neq t 0) Ht0), Hg. simpl.
  rewrite bool_decide_eq_true_2 by done. fold st.
  by rewrite getitem_fst; unfold get0; rewrite H4.
Qed.
End run.

(** * The specification's claims *)

(** ** Grids from well-formed boundaries *)

Lemma default_nonneg (l : list Z) (k : nat) :
  Forall (fun x => (0 <= x)%Z) l -> (0 <= default 0%Z (l !! k))%Z.
Proof.
  intros H. destruct (l !! k) as [x|] eqn:E; simpl; [|lia].
  by apply (Forall_lookup_1 _ _ _ _ H E).
Qed.

Section bounded_grid.
Variables (u v : list ascii) (first_col first_row : list Z) (t : nat).
Hypothesis Hu : length u = t.
Hypothesis Hv : length v = t.
Hypothesis Hfc : length first_col = t + 1.
Hypothesis Hfr : length first_row = t + 1.
Hypothesis Hcol : boundary_ok first_col.
Hypothesis Hrow : boundary_ok first_row.

Let c := cell u v first_col first_row.

Lemma bounded_nonneg i j : (0 <= c i j)%Z.
Proof.
  apply cell_nonneg.
  - intros j'. rewrite cell_0. apply default_nonneg, Hrow.
  - intros [|i']; [rewrite cell_0|rewrite cell_S_0]; apply default_nonneg;
      [apply Hrow|apply Hcol].
Qed.

Lemma bounded_lookup :
  exists dp : Grid,
    construct_lcs_grid u v first_col first_row = Ok dp /\
    forall a b, dp !! (a, b) =
      if bool_decide (a <= t /\ b <= t) then Some (c a b) else None.
Proof.
  destruct (construct_lcs_grid_lookup u v first_col first_row) as (dp & Hdp & Hl);
    [lia..|].
  exists dp. split; [done|]. intros a b. rewrite Hl, Hu, Hv. done.
Qed.

Lemma bounded_row0 j : j <= t -> Some (c 0 j) = first_row !! j.
Proof.
  intros Hj. unfold c. rewrite cell_0.
  destruct (lookup_lt_is_Some_2 first_row j) as [x ->]; [lia|done].
Qed.

Lemma bounded_col0 i : 1 <= i -> i <= t -> Some (c i 0) = first_col !! i.
Proof.
  intros Hi Hi'. unfold c. destruct i as [|i]; [lia|]. rewrite cell_S_0.
  destruct (lookup_lt_is_Some_2 first_col (S i)) as [x ->]; [lia|done].
Qed.

Lemma bounded_row_steps j : j < t -> unit_step (c 0 j) (c 0 (S j)).
Proof.
  intros Hj. unfold c. rewrite !cell_0.
  destruct (lookup_lt_is_Some_2 first_row j) as [x Hx]; [lia|].
  destruct (lookup_lt_is_Some_2 first_row (S j)) as [y Hy]; [lia|].
  rewrite Hx, Hy. simpl. by apply (proj2 Hrow j).
Qed.

Lemma bounded_col_steps i :
  first_col !! 0 = first_row !! 0 ->
  i < t -> unit_step (c i 0) (c (S i) 0).
Proof.
  intros H0 Hi. unfold c. rewrite cell_S_0.
  destruct (lookup_lt_is_Some_2 first_col i) as [x Hx]; [lia|].
  destruct (lookup_lt_is_Some_2 first_col (S i)) as [y Hy]; [lia|].
  replace (cell u v first_col first_row i 0) with x.
  - rewrite Hy. simpl. by apply (proj2 Hcol i).
  - destruct i as [|i]; [rewrite cell_0, <- H0|rewrite cell_S_0]; by rewrite Hx.
Qed.
End bounded_grid.

(** C6. For equal-length sequences and boundary arrays that are
    non-negative, non-decreasing with consecutive differences 0 or 1, and
    that agree at index 0, the grid [construct_lcs_grid] returns is
    non-decreasing in [i] and in [j], and two horizontally or vertically
    adjacent cells differ by exactly 0 or 1. *)
Theorem construct_lcs_grid_unit_steps (u v : list ascii) (first_col first_row : list Z)
    (t : nat) :
  length u = t -> length v = t ->
  length first_col = t + 1 -> length first_row = t + 1 ->
  boundary_ok first_col -> boundary_ok first_row ->
  first_col !! 0 = first_row !! 0 ->
  exists dp : Grid,
    construct_lcs_grid u v first_col first_row = Ok dp /\
    (forall i j, i <= t -> j < t ->
       exists x y, dp !! (i, j) = Some x /\ dp !! (i, S j) = Some y /\
                   unit_step x y) /\
    (forall i j, i < t -> j <= t ->
       exists x y, dp !! (i, j) = Some x /\ dp !! (S i, j) = Some y /\
                   unit_step x y) /\
    (forall i i' j j', i <= i' -> i' <= t -> j <= j' -> j' <= t ->
       exists x y, dp !! (i, j) = Some x /\ dp !! (i', j') = Some y /\ (x <= y)%Z).
Proof.
  intros Hu Hv Hfc Hfr Hcol Hrow H0.
  destruct (bounded_lookup u v first_col first_row t Hu Hv Hfc Hfr) as (dp & Hdp & Hl).
  pose proof (bounded_nonneg u v first_col first_row Hcol Hrow) as Hnn.
  pose proof (bounded_row_steps u v first_col first_row t Hu Hv Hfc Hfr Hrow) as Hrs.
  pose proof (fun i => bounded_col_steps u v first_col first_row t Hu Hv Hfc Hfr Hcol i H0)
    as Hcs.
  exists dp. split; [done|]. split_and!.
  - intros i j Hi Hj. do 2 eexists. rewrite !Hl, !bool_decide_eq_true_2 by lia.
    split_and!; [done..|].
    apply (cell_step_right u v first_col first_row t t); auto.
  - intros i j Hi Hj. do 2 eexists. rewrite !Hl, !bool_decide_eq_true_2 by lia.
    split_and!; [done..|].
    apply (cell_step_down u v first_col first_row t t); auto.
  - intros i i' j j' Hi Hi' Hj Hj'. do 2 eexists.
    rewrite !Hl, !bool_decide_eq_true_2 by lia. split_and!; [done..|].
    apply (cell_mono u v first_col first_row t t); auto.
Qed.

Lemma boundary_ok_0_1 : boundary_ok [0%Z; 1%Z].
Proof.
  split; [repeat constructor; lia|].
  intros [|[|k]] x y; simpl; intros [= <-] [= <-]. by right.
Qed.

Lemma boundary_ok_1_2 : boundary_ok [1%Z; 2%Z].
Proof.
  split; [repeat constructor; lia|].
  intros [|[|k]] x y; simpl; intros [= <-] [= <-]. by right.
Qed.

Lemma construct_lcs_grid_unit_steps_witness :
  exists dp : Grid,
    construct_lcs_grid (str "A") (str "T") [0%Z; 1%Z] [0%Z; 1%Z] = Ok dp /\
    (forall i j, i <= 1 -> j < 1 ->
       exists x y, dp !! (i, j) = Some x /\ dp !! (i, S j) = Some y /\
                   unit_step x y) /\
    (forall i j, i < 1 -> j <= 1 ->
       exists x y, dp !! (i, j) = Some x /\ dp !! (S i, j) = Some y /\
                   unit_step x y) /\
    (forall i i' j j', i <= i' -> i' <= 1 -> j <= j' -> j' <= 1 ->
       exists x y, dp !! (i, j) = Some x /\ dp !! (i', j') = Some y /\ (x <= y)%Z).
Proof.
  apply (construct_lcs_grid_unit_steps (str "A") (str "T") [0%Z; 1%Z] [0%Z; 1%Z] 1);
    try reflexivity; apply boundary_ok_0_1.
Defined.

(** C7, as the code has it.  For equal-length sequences of length [t]
    and boundary arrays that are non-negative, non-decreasing with
    consecutive differences 0 or 1, [construct_lcs_grid] returns the full
    (t+1)x(t+1) grid; for [1 <= i, j <= t] the score at [(i, j)] is the
    score at [(i-1, j-1)] plus one when [a[i-1] == b[j-1]], and the larger
    of the scores at [(i-1, j)] and [(i, j-1)] otherwise; row 0 is
    [first_row]; column 0 is [first_col] from row 1 down, the corner
    [(0, 0)] being [first_row[0]]. *)
Theorem construct_lcs_grid_recurrence (u v : list ascii) (first_col first_row : list Z)
    (t : nat) :
  length u = t -> length v = t ->
  length first_col = t + 1 -> length first_row = t + 1 ->
  boundary_ok first_col -> boundary_ok first_row ->
  exists dp : Grid,
    construct_lcs_grid u v first_col first_row = Ok dp /\
    grid_full t dp /\ grid_row0 first_row t dp /\ grid_col0 first_col t 1 dp /\
    grid_recurrence u v t dp.
Proof.
  intros Hu Hv Hfc Hfr Hcol Hrow.
  destruct (bounded_lookup u v first_col first_row t Hu Hv Hfc Hfr) as (dp & Hdp & Hl).
  pose proof (bounded_nonneg u v first_col first_row Hcol Hrow) as Hnn.
  exists dp. split; [done|]. split_and!.
  - intros i j. rewrite Hl.
    case_bool_decide as H; split; intros H'; try done.
    all: try (by eexists). all: try (by destruct H' as [? [=]]).
  - intros j Hj. rewrite Hl, bool_decide_eq_true_2 by lia.
    by apply (bounded_row0 u v first_col first_row t).
  - intros i Hi Hi'. rewrite Hl, bool_decide_eq_true_2 by lia.
    by apply (bounded_col0 u v first_col first_row t).
  - intros i j a b x y z Hi Hj Ha Hb. rewrite !Hl, !bool_decide_eq_true_2 by lia.
    intros Hx Hy Hz.
    assert (x = cell u v first_col first_row i j) as -> by congruence.
    assert (y = cell u v first_col first_row i (S j)) as -> by congruence.
    assert (z = cell u v first_col first_row (S i) j) as -> by congruence.
    f_equal. rewrite cell_S_S. unfold same_with.
    rewrite Ha, Hb. change (char_eq a b) with (bool_decide (a = b)).
    specialize (Hnn i j). case_bool_decide; lia.
Qed.

Lemma construct_lcs_grid_recurrence_witness :
  exists dp : Grid,
    construct_lcs_grid (str "A") (str "T") [1%Z; 2%Z] [0%Z; 1%Z] = Ok dp /\
    grid_full 1 dp /\ grid_row0 [0%Z; 1%Z] 1 dp /\ grid_col0 [1%Z; 2%Z] 1 1 dp /\
    grid_recurrence (str "A") (str "T") 1 dp.
Proof.
  apply (construct_lcs_grid_recurrence (str "A") (str "T") [1%Z; 2%Z] [0%Z; 1%Z] 1);
    try reflexivity; [apply boundary_ok_1_2 | apply boundary_ok_0_1].
Defined.

(** C7 as stated fails: with [first_col = [1, 2]] and [first_row = [0, 1]]
    (both non-negative, non-decreasing, steps 0 or 1) the corner [(0, 0)]
    of the returned grid is [first_row[0] = 0], not [first_col[0] = 1], so
    column 0 is not [first_col]. *)
Lemma construct_lcs_grid_column0_counterexample :
  length (str "A") = 1 /\ length (str "T") = 1 /\
  boundary_ok [1%Z; 2%Z] /\ boundary_ok [0%Z; 1%Z] /\
  exists dp : Grid,
    construct_lcs_grid (str "A") (str "T") [1%Z; 2%Z] [0%Z; 1%Z] = Ok dp /\
    dp !! (0, 0) = Some 0%Z /\
    ~ grid_col0 [1%Z; 2%Z] 1 0 dp.
Proof.
  split_and!; [done|done|apply boundary_ok_1_2|apply boundary_ok_0_1|].
  eexists. split; [vm_compute; reflexivity|]. split; [by vm_compute|].
  intros H. specialize (H 0 ltac:(lia) ltac:(lia)). vm_compute in H. discriminate.
Qed.

(** ** The block table *)

Lemma sum_prefix_bits (o : list Z) (j : nat) :
  Forall (fun x => x ∈ bits) o -> (0 <= sum_prefix o j <= Z.of_nat j)%Z.
Proof.
  unfold sum_prefix. intros Ho. revert j.
  induction Ho as [|x o Hx Ho IH]; intros [|j]; simpl; try lia.
  specialize (IH j). unfold bits in Hx. rewrite !elem_of_cons, elem_of_nil in Hx.
  lia.
Qed.

Lemma boundary_bits (t : nat) (o : list Z) (j : nat) :
  Forall (fun x => x ∈ bits) o ->
  (0 <= default 0%Z (boundary t o !! j) <= Z.of_nat j)%Z.
Proof.
  intros Ho. destruct (decide (j <= t)) as [Hj|Hj].
  - rewrite lookup_boundary by done. simpl. by apply sum_prefix_bits.
  - rewrite (lookup_ge_None_2 (boundary t o) j); [simpl; lia|].
    rewrite length_boundary. lia.
Qed.

(** C8. For every [t] (so for every [t >= 1]), [precompute_grids t]
    returns a table that stores a grid for every block key, that is for
    every pair of length-[t] strings over A, T, C, G, $ with every pair of
    length-[t] vectors of 0s and 1s, and for no other key; every stored
    grid is a full (t+1)x(t+1) grid, all its values lie in [[0, t]], and
    its value at [(0, 0)] is 0. *)
Theorem precompute_grids_range (t : nat) :
  exists grids : Table,
    precompute_grids t = Ok grids /\
    (forall key : Key, valid_key t key <-> is_Some (grids !! key)) /\
    forall (key : Key) (g : Grid), grids !! key = Some g ->
      grid_full t g /\
      (forall i j x, g !! (i, j) = Some x -> (0 <= x <= Z.of_nat t)%Z) /\
      g !! (0, 0) = Some 0%Z.
Proof.
  destruct (precompute_grids_lookup t) as (grids & Hg & Hk).
  exists grids. split; [done|]. split.
  { intros key. destruct (Hk key) as [(Hv & x & _ & ->)|[Hn ->]].
    - split; [by eexists|done].
    - split; [done|]. by intros [? ?]. }
  intros key g Hkey.
  destruct (Hk key) as [(Hv & x & Hx & Hlk)|[_ Hn]]; [|congruence].
  assert (x = g) as -> by congruence.
  destruct key as [[[u v] ro] co]. destruct Hv as ((Hu & _) & (Hv & _) & (_ & Hro) & (_ & Hco)).
  unfold block_grid in Hx.
  destruct (construct_lcs_grid_lookup u v (boundary t co) (boundary t ro))
    as (dp & Hdp & Hl); [rewrite length_boundary; lia..|].
  assert (dp = g) as -> by congruence. rewrite Hu, Hv in Hl.
  assert (forall i j, (0 <= cell u v (boundary t co) (boundary t ro) i j)%Z) as Hnn.
  { apply cell_nonneg.
    - intros j. rewrite cell_0. by apply boundary_bits.
    - intros [|i]; [rewrite cell_0|rewrite cell_S_0]; by apply boundary_bits. }
  assert (forall i j, (cell u v (boundary t co) (boundary t ro) i j
                       <= Z.of_nat (Nat.max i j))%Z) as Hle.
  { apply cell_le_max.
    - intros j. rewrite cell_0. by apply boundary_bits.
    - intros [|i]; [rewrite cell_0|rewrite cell_S_0]; by apply boundary_bits. }
  split_and!.
  - intros i j. rewrite Hl.
    case_bool_decide as H; split; intros H'; try done.
    all: try (by eexists). all: try (by destruct H' as [? [=]]).
  - intros i j y. rewrite Hl. case_bool_decide as H; [|done]. intros [= <-].
    specialize (Hnn i j). specialize (Hle i j). lia.
  - rewrite Hl, bool_decide_eq_true_2 by lia. f_equal.
    rewrite cell_0, lookup_boundary by lia. done.
Qed.

(** C5, as the code has it.  The content strings range over the four
    bases and the sentinel: [precompute_grids t] enumerates exactly [5^t]
    distinct content strings per axis and [2^t] distinct offset vectors
    per edge, and stores exactly [5^(2t) * 4^t] distinct entries, one per
    combination. *)
Theorem precompute_grids_count (t : nat) :
  length (generate_strings t []) = 5 ^ t /\ NoDup (generate_strings t []) /\
  length (offset_vectors_generator t) = 2 ^ t /\ NoDup (offset_vectors_generator t) /\
  exists grids : Table,
    precompute_grids t = Ok grids /\ size grids = 5 ^ (2 * t) * 4 ^ t.
Proof.
  split_and!;
    [apply length_generate_strings | apply NoDup_generate_strings
    |apply length_offset_vectors | apply NoDup_offset_vectors|].
  destruct (precompute_grids_lookup t) as (grids & Hg & _).
  exists grids. split; [done|]. rewrite (precompute_grids_size t grids Hg).
  rewrite Nat.pow_mul_r. change (5 ^ 2) with 25.
  replace 25 with (5 * 5) by done. replace 4 with (2 * 2) by done.
  rewrite !Nat.pow_mul_l. lia.
Qed.

(** C5 as stated fails at [t = 1]: five content strings, not [4^1], and
    100 table entries, not [4^3]. *)
Lemma precompute_grids_count_counterexample :
  length (generate_strings 1 []) = 5 /\
  length (generate_strings 1 []) <> 4 ^ 1 /\
  exists grids : Table,
    precompute_grids 1 = Ok grids /\ size grids = 100 /\ size grids <> 4 ^ (3 * 1).
Proof.
  split; [done|]. split; [by vm_compute|].
  destruct (precompute_grids_lookup 1) as (grids & Hg & _).
  exists grids. split; [done|]. rewrite (precompute_grids_size 1 grids Hg).
  split; [done|]. by vm_compute.
Qed.

(** ** The sentinel *)

(** C4 as stated fails: [construct_lcs_grid] compares characters with
    [==], and ["$" == "$"] holds.  On ["$"] against ["$"] the cell [(1, 1)]
    is scored as a match (1), where the sentinel reading gives 0; the
    same grid is the table entry of the key [("$", "$", (0,), (0,))]. *)
Lemma sentinel_self_match_counterexample :
  construct_lcs_grid (str "$") (str "$") [0%Z; 0%Z] [0%Z; 0%Z]
    <> construct_lcs_grid_sentinel (str "$") (str "$") [0%Z; 0%Z] [0%Z; 0%Z] /\
  (exists dp : Grid,
     construct_lcs_grid (str "$") (str "$") [0%Z; 0%Z] [0%Z; 0%Z] = Ok dp /\
     dp !! (1, 1) = Some 1%Z) /\
  (exists dp : Grid,
     construct_lcs_grid_sentinel (str "$") (str "$") [0%Z; 0%Z] [0%Z; 0%Z] = Ok dp /\
     dp !! (1, 1) = Some 0%Z) /\
  (exists (grids : Table) (g : Grid),
     precompute_grids 1 = Ok grids /\
     grids !! (str "$", str "$", [0%Z], [0%Z]) = Some g /\
     g !! (1, 1) = Some 1%Z).
Proof.
  assert (exists dp : Grid,
     construct_lcs_grid (str "$") (str "$") [0%Z; 0%Z] [0%Z; 0%Z] = Ok dp /\
     dp !! (1, 1) = Some 1%Z) as Hcode.
  { eexists. split; [vm_compute; reflexivity|]. by vm_compute. }
  assert (exists dp : Grid,
     construct_lcs_grid_sentinel (str "$") (str "$") [0%Z; 0%Z] [0%Z; 0%Z] = Ok dp /\
     dp !! (1, 1) = Some 0%Z) as Hspec.
  { eexists. split; [vm_compute; reflexivity|]. by vm_compute. }
  split_and!; [|done|done|].
  - destruct Hcode as (dp & Hdp & H1), Hspec as (dp' & Hdp' & H0). congruence.
  - destruct (precompute_grids_lookup 1) as (grids & Hg & Hk).
    destruct (Hk (str "$", str "$", [0%Z], [0%Z])) as [(_ & g & Hx & Hlk)|[Hn _]].
    + exists grids, g. split_and!; [done..|].
      vm_compute in Hx. injection Hx as <-. by vm_compute.
    + destruct Hn. repeat split; repeat constructor; compute_done.
Qed.

Lemma same_sentinel (u v : list ascii) (i j a b : nat) :
  "$"%char ∉ take i u \/ "$"%char ∉ take j v ->
  a < i -> b < j -> same_with char_eq u v a b = same_with sentinel_eq u v a b.
Proof.
  intros Hfree Ha Hb. unfold same_with.
  destruct (u !! a) as [x|] eqn:Hx; [|done].
  destruct (v !! b) as [y|] eqn:Hy; [|done].
  unfold char_eq, sentinel_eq.
  assert (x ∈ take i u) as Hxi.
  { apply list_elem_of_lookup. exists a. by rewrite lookup_take_lt. }
  assert (y ∈ take j v) as Hyj.
  { apply list_elem_of_lookup. exists b. by rewrite lookup_take_lt. }
  apply bool_decide_ext. split; [|tauto]. intros ->. split; [done|].
  intros ->. tauto.
Qed.

(** C4, as the code has it.  The sentinel is an ordinary character: it
    never equals an alphabet base, and it equals itself, so a cell whose
    row symbol and column symbol are both [$] is scored as a match.  The
    grid [construct_lcs_grid] builds coincides with the grid under the
    sentinel reading on every cell [(i, j)] for which [u[:i]] or [v[:j]]
    holds no [$]. *)
Theorem construct_lcs_grid_sentinel_agree (u v : list ascii)
    (first_col first_row : list Z) :
  length u + 1 <= length first_col -> length v + 1 <= length first_row ->
  exists dp dp' : Grid,
    construct_lcs_grid u v first_col first_row = Ok dp /\
    construct_lcs_grid_sentinel u v first_col first_row = Ok dp' /\
    (forall i j, "$"%char ∉ take i u \/ "$"%char ∉ take j v ->
       dp !! (i, j) = dp' !! (i, j)) /\
    (forall i j x, u !! i = Some "$"%char -> v !! j = Some "$"%char ->
       dp !! (i, j) = Some x ->
       dp !! (S i, S j) = Some (Z.max 0 (x + 1))) /\
    (forall i j a y z, u !! i = Some a -> a ∈ alphabet -> v !! j = Some "$"%char ->
       dp !! (i, S j) = Some y -> dp !! (S i, j) = Some z ->
       dp !! (S i, S j) = Some (Z.max y z)).
Proof.
  intros Hfc Hfr.
  destruct (construct_lcs_grid_with_lookup char_eq u v first_col first_row Hfc Hfr)
    as (dp & Hdp & Hl).
  destruct (construct_lcs_grid_with_lookup sentinel_eq u v first_col first_row Hfc Hfr)
    as (dp' & Hdp' & Hl').
  exists dp, dp'. split_and!; [done..| | |].
  - intros i j Hfree. rewrite Hl, Hl'. case_bool_decide; [|done]. f_equal.
    apply (cell_ext char_eq sentinel_eq u v u v _ _ _ _ i j);
      [|done|by intros [|a] _|lia..].
    intros a b Ha Hb. by apply (same_sentinel u v i j).
  - intros i j x Hi Hj. rewrite !Hl.
    pose proof (lookup_lt_Some _ _ _ Hi). pose proof (lookup_lt_Some _ _ _ Hj).
    rewrite !bool_decide_eq_true_2 by lia. intros Hx.
    assert (x = cell u v first_col first_row i j) as -> by congruence.
    f_equal. rewrite cell_S_S. unfold same_with. by rewrite Hi, Hj.
  - intros i j a y z Hi Ha Hj. rewrite !Hl.
    pose proof (lookup_lt_Some _ _ _ Hi). pose proof (lookup_lt_Some _ _ _ Hj).
    rewrite !bool_decide_eq_true_2 by lia. intros Hy Hz.
    assert (y = cell u v first_col first_row i (S j)) as -> by congruence.
    assert (z = cell u v first_col first_row (S i) j) as -> by congruence.
    f_equal. rewrite cell_S_S. unfold same_with. rewrite Hi, Hj.
    unfold char_eq. rewrite bool_decide_eq_false_2; [done|].
    by apply alphabet_not_sentinel.
Qed.

Lemma construct_lcs_grid_sentinel_agree_witness :
  exists dp dp' : Grid,
    construct_lcs_grid (str "A$") (str "A$") [0%Z; 0%Z; 0%Z] [0%Z; 0%Z; 0%Z] = Ok dp /\
    construct_lcs_grid_sentinel (str "A$") (str "A$") [0%Z; 0%Z; 0%Z] [0%Z; 0%Z; 0%Z]
      = Ok dp' /\
    (forall i j, "$"%char ∉ take i (str "A$") \/ "$"%char ∉ take j (str "A$") ->
       dp !! (i, j) = dp' !! (i, j)) /\
    (forall i j x, str "A$" !! i = Some "$"%char -> str "A$" !! j = Some "$"%char ->
       dp !! (i, j) = Some x ->
       dp !! (S i, S j) = Some (Z.max 0 (x + 1))) /\
    (forall i j a y z, str "A$" !! i = Some a -> a ∈ alphabet ->
       str "A$" !! j = Some "$"%char ->
       dp !! (i, S j) = Some y -> dp !! (S i, j) = Some z ->
       dp !! (S i, S j) = Some (Z.max y z)).
Proof.
  apply (construct_lcs_grid_sentinel_agree (str "A$") (str "A$")
           [0%Z; 0%Z; 0%Z] [0%Z; 0%Z; 0%Z]); simpl; lia.
Defined.

(** ** [four_russians] against the baseline *)

(** C9. The four concrete scenarios. *)
Theorem four_russians_scenarios :
  four_russians (str "GACGTAGCATAAGCGC") (str "TGCAACGTATAACGGG") = Ok 11%Z /\
  four_russians (str "TCAGTACTAGTTATCAGTCTAGTCAGCTACTA")
                (str "GTCAGTACTAGTTATCAGTCTAGTCAGCTACT") = Ok 31%Z /\
  four_russians (str "ATCG") (str "ATCG") = Ok 4%Z /\
  four_russians (str "AAAA") (str "TTTT") = Ok 0%Z.
Proof. split_and!; by vm_compute. Qed.

Lemma alphabet_not_sentinel_all (u : list ascii) :
  Forall (fun x => x ∈ alphabet) u -> Forall (fun x => x <> "$"%char) u.
Proof. intros H. eapply Forall_impl; [done|]. apply alphabet_not_sentinel. Qed.

(** C1, as the code has it.  For non-empty sequences over {A,T,C,G}
    whose padded length [n] is a multiple of the block size [t] (or whose
    block size is 0), [four_russians] returns the value the baseline
    computes on the unpadded sequences. *)
Theorem four_russians_exact (u v : list ascii) :
  u <> [] -> v <> [] ->
  Forall (fun x => x ∈ alphabet) u -> Forall (fun x => x ∈ alphabet) v ->
  chosen_t u v = 0 \/ padded_n u v mod chosen_t u v = 0 ->
  exists z : Z, four_russians u v = Ok z /\ naive_lcs u v = Ok z.
Proof.
  intros _ _ Hu Hv Hcase. unfold chosen_t, padded_n in Hcase.
  exists (lcs u v (length u) (length v)). split; [|apply naive_lcs_lcs].
  pose proof (padded_bounds u v) as (Hlu & Hlv & _).
  rewrite <- (lcs_ljust u v (padded_length (length u) (length v)));
    [|by apply alphabet_not_sentinel_all|done..].
  destruct (decide (block_size (padded_length (length u) (length v)) = 0)) as [Ht0|Ht0].
  { by apply four_russians_small. }
  destruct Hcase as [?|Hmod]; [done|].
  destruct (precompute_grids_lookup (block_size (padded_length (length u) (length v))))
    as (grids & Hg & _).
  by destruct (four_russians_blocks u v grids Hu Hv Ht0 Hmod Hg) as [-> _].
Qed.

Lemma alphabet_ATCG : Forall (fun x => x ∈ alphabet) (str "ATCG").
Proof. repeat constructor; compute_done. Defined.

Lemma four_russians_exact_witness :
  exists z : Z,
    four_russians (str "ATCG") (str "ATCG") = Ok z /\
    naive_lcs (str "ATCG") (str "ATCG") = Ok z.
Proof.
  apply (four_russians_exact (str "ATCG") (str "ATCG"));
    [discriminate | discriminate | apply alphabet_ATCG | apply alphabet_ATCG
    | right; reflexivity].
Defined.

(** C1 as stated fails: on two sequences of 33 symbols the padded
    length is 64 and the block size 3, the assertion fails, and no score
    is returned, while the baseline returns 33. *)
Lemma four_russians_exact_counterexample :
  run_of_33 <> [] /\ Forall (fun x => x ∈ alphabet) run_of_33 /\
  padded_n run_of_33 run_of_33 = 64 /\ chosen_t run_of_33 run_of_33 = 3 /\
  four_russians run_of_33 run_of_33 = Raise AssertionError /\
  naive_lcs run_of_33 run_of_33 = Ok 33%Z /\
  ~ (exists z : Z, four_russians run_of_33 run_of_33 = Ok z /\
                   naive_lcs run_of_33 run_of_33 = Ok z).
Proof.
  assert (four_russians run_of_33 run_of_33 = Raise AssertionError) as Hraise
    by by apply four_russians_assert.
  split_and!; [done| |done|done|done|by vm_compute|].
  - apply Forall_replicate. compute_done.
  - intros (z & Hz & _). congruence.
Qed.

(** ** Errors *)

(** C2 as stated fails: [four_russians] has no alphabet check.  On
    ["XXXX"] against itself it raises nothing and returns 0 (the baseline
    returns 4). *)
Lemma four_russians_alphabet_counterexample :
  ~ Forall (fun x => x ∈ alphabet) (str "XXXX") /\
  four_russians (str "XXXX") (str "XXXX") = Ok 0%Z /\
  naive_lcs (str "XXXX") (str "XXXX") = Ok 4%Z /\
  ~ (exists e, four_russians (str "XXXX") (str "XXXX") = Raise e).
Proof.
  assert (four_russians (str "XXXX") (str "XXXX") = Ok 0%Z) as Hret by by vm_compute.
  split_and!; [|done|by vm_compute|].
  - intros H. apply Forall_cons in H as [H _]. revert H. unfold alphabet.
    rewrite !elem_of_cons, elem_of_nil. intros [H|[H|[H|[H|[]]]]]; discriminate.
  - intros [e He]. congruence.
Qed.

(** C2, as the code has it.  An input with a symbol outside {A,T,C,G} is
    not rejected: the call returns a number whenever the block size is 0
    or divides the padded length, and otherwise fails by the block-size
    assertion, exactly as for any other input. *)
Theorem four_russians_no_alphabet_check (u v : list ascii) :
  (exists x, x ∈ u ++ v /\ x ∉ alphabet) ->
  ((chosen_t u v = 0 \/ padded_n u v mod chosen_t u v = 0) /\
   exists z : Z, four_russians u v = Ok z)
  \/ (chosen_t u v <> 0 /\ padded_n u v mod chosen_t u v <> 0 /\
      four_russians u v = Raise AssertionError).
Proof.
  intros _. unfold chosen_t, padded_n.
  destruct (decide (block_size (padded_length (length u) (length v)) = 0)) as [Ht0|Ht0].
  { left. split; [by left|]. apply four_russians_returns. by left. }
  destruct (decide (padded_length (length u) (length v)
                    mod block_size (padded_length (length u) (length v)) = 0))
    as [Hmod|Hmod].
  - left. split; [by right|]. apply four_russians_returns. by right.
  - right. split_and!; [done..|]. by apply four_russians_assert.
Qed.

Lemma four_russians_no_alphabet_check_witness :
  ((chosen_t (str "XXXX") (str "XXXX") = 0
    \/ padded_n (str "XXXX") (str "XXXX") mod chosen_t (str "XXXX") (str "XXXX") = 0) /\
   exists z : Z, four_russians (str "XXXX") (str "XXXX") = Ok z)
  \/ (chosen_t (str "XXXX") (str "XXXX") <> 0 /\
      padded_n (str "XXXX") (str "XXXX") mod chosen_t (str "XXXX") (str "XXXX") <> 0 /\
      four_russians (str "XXXX") (str "XXXX") = Raise AssertionError).
Proof.
  apply (four_russians_no_alphabet_check (str "XXXX") (str "XXXX")).
  exists "X"%char. split; [by left|].
  unfold alphabet. rewrite !elem_of_cons, elem_of_nil.
  intros [H|[H|[H|[H|[]]]]]; discriminate.
Defined.

Lemma padded_length_smallest (a b : nat) :
  smallest_pow2_ge (Nat.max a b) (padded_length a b).
Proof.
  destruct (padded_length_exit a b) as (Hge & k & Hk & Hmin).
  split_and!; [by exists k|done|].
  intros p [k' ->] Hp. rewrite Hk. apply Nat.pow_le_mono_r; [lia|].
  destruct Hmin as [->|Hmin]; [lia|].
  assert (2 ^ (k - 1) < 2 ^ k') as Hlt by lia.
  apply Nat.pow_lt_mono_r_iff in Hlt; lia.
Qed.

Lemma smallest_pow2_ge_unique (bound n n' : nat) :
  smallest_pow2_ge bound n -> smallest_pow2_ge bound n' -> n = n'.
Proof.
  intros (Hp & Hb & Hmin) (Hp' & Hb' & Hmin').
  specialize (Hmin n' Hp' Hb'). specialize (Hmin' n Hp Hb). lia.
Qed.

Lemma block_size_floor (n : nat) : 0 < n -> floor_log4 n (block_size n).
Proof.
  intros Hn. unfold block_size, log4. rewrite (proj2 (Nat.ltb_lt 0 n) Hn).
  destruct (Nat.log2_spec n Hn) as [Hlo Hhi].
  pose proof (Nat.Div0.div_mod (Nat.log2 n) 2) as Hdm.
  pose proof (Nat.mod_upper_bound (Nat.log2 n) 2 ltac:(lia)) as Hmod.
  set (t := Nat.log2 n / 2) in *.
  assert (forall k, 4 ^ k = 2 ^ (2 * k)) as H4.
  { intros k. by rewrite Nat.pow_mul_r. }
  split.
  - rewrite H4. etrans; [|apply Hlo]. apply Nat.pow_le_mono_r; lia.
  - rewrite H4. eapply Nat.lt_le_trans; [apply Hhi|]. apply Nat.pow_le_mono_r; lia.
Qed.

Lemma floor_log4_unique (n t t' : nat) :
  floor_log4 n t -> floor_log4 n t' -> t = t'.
Proof.
  intros [H1 H2] [H1' H2'].
  assert (4 ^ t < 4 ^ (t' + 1)) as Ha by lia.
  assert (4 ^ t' < 4 ^ (t + 1)) as Hb by lia.
  apply Nat.pow_lt_mono_r_iff in Ha; [|lia].
  apply Nat.pow_lt_mono_r_iff in Hb; [|lia]. lia.
Qed.

(** C3. For non-empty inputs over {A,T,C,G}, with [n] the smallest power
    of two no smaller than the longer input and [t] the integer part of
    [log4 n]: whenever [t >= 1], [four_russians] raises an error if and
    only if [n] is not a multiple of [t]; the error is the assertion's,
    and the call then yields no result. *)
Theorem four_russians_raises_iff (u v : list ascii) (n t : nat) :
  u <> [] -> v <> [] ->
  Forall (fun x => x ∈ alphabet) u -> Forall (fun x => x ∈ alphabet) v ->
  smallest_pow2_ge (Nat.max (length u) (length v)) n ->
  floor_log4 n t ->
  1 <= t ->
  ((exists e, four_russians u v = Raise e) <-> n mod t <> 0) /\
  (n mod t <> 0 -> four_russians u v = Raise AssertionError) /\
  (forall e, four_russians u v = Raise e -> forall z, four_russians u v <> Ok z).
Proof.
  intros _ _ _ _ Hn Hlog Ht.
  assert (n = padded_length (length u) (length v)) as ->.
  { eapply smallest_pow2_ge_unique; [done|]. apply padded_length_smallest. }
  assert (t = block_size (padded_length (length u) (length v))) as Ht'.
  { eapply floor_log4_unique; [done|]. apply block_size_floor, padded_length_pos. }
  split_and!.
  - split.
    + intros [e He] Hmod.
      destruct (four_russians_returns u v) as [z Hz]; [right; by rewrite <- Ht'|].
      congruence.
    + intros Hmod. exists AssertionError. rewrite Ht' in Hmod.
      apply four_russians_assert; [lia|done].
  - intros Hmod. rewrite Ht' in Hmod. apply four_russians_assert; [lia|done].
  - intros e He z. congruence.
Qed.

Lemma smallest_pow2_ge_4 : smallest_pow2_ge (Nat.max 4 4) 4.
Proof.
  split_and!; [by exists 2|simpl; lia|]. intros p _ Hp. simpl in Hp. lia.
Defined.

Lemma four_russians_raises_iff_witness :
  ((exists e, four_russians (str "ATCG") (str "ATCG") = Raise e) <-> 4 mod 1 <> 0) /\
  (4 mod 1 <> 0 -> four_russians (str "ATCG") (str "ATCG") = Raise AssertionError) /\
  (forall e, four_russians (str "ATCG") (str "ATCG") = Raise e ->
     forall z, four_russians (str "ATCG") (str "ATCG") <> Ok z).
Proof.
  apply (four_russians_raises_iff (str "ATCG") (str "ATCG") 4 1);
    [discriminate | discriminate | apply alphabet_ATCG | apply alphabet_ATCG
    | apply smallest_pow2_ge_4 | split; simpl; lia | lia].
Defined.

(** ** Table lookups of the assembly loop *)

(** C10 as stated fails: nothing keeps other symbols out of the loop.
    On ["XXXX"] against itself ([n = 4], [t = 1], 16 blocks) every chunk is
    ["X"], no key is in the table, every lookup takes the default branch
    (and stores an empty grid under the missing key), and the zeros read
    from the empty grid are what the main grid is filled with. *)
Lemma block_keys_counterexample :
  padded_n (str "XXXX") (str "XXXX") = 4 /\
  chosen_t (str "XXXX") (str "XXXX") = 1 /\
  ljust (str "XXXX") 4 "$" = str "XXXX" /\
  (grids ← precompute_grids 1;
   let st := assemble (str "XXXX") (str "XXXX") 1 (4 / 1) (State (init_F 4) grids []) in
   Ok (missed_keys grids st, size (st_grids st) - size grids))
  = Ok (replicate 16 (str "X", str "X", [0%Z], [0%Z]), 1) /\
  four_russians (str "XXXX") (str "XXXX") = Ok 0%Z.
Proof. split_and!; by vm_compute. Qed.

Lemma no_missed_keys (grids : Table) (st : state) :
  Forall (fun key => is_Some (grids !! key)) (st_keys st) -> missed_keys grids st = [].
Proof.
  unfold missed_keys. induction 1 as [|key l [g Hk] Hl IH]; [done|].
  rewrite filter_cons_False; [exact IH|]. rewrite Hk. discriminate.
Qed.

(** C10, as the code has it.  For inputs over {A,T,C,G}, in every run
    that reaches the block-assembly loop (block size [t >= 1] dividing the
    padded length [n]) every key subscripted in the table is present: its
    chunks are length-[t] strings over {A,T,C,G,$} and its offset tuples
    are length-[t] vectors of 0s and 1s; the loop makes one lookup per
    block and leaves the table as [precompute_grids] built it, so no
    value written into the main grid comes from the default branch. *)
Theorem block_keys_present (u v : list ascii) :
  Forall (fun x => x ∈ alphabet) u -> Forall (fun x => x ∈ alphabet) v ->
  chosen_t u v <> 0 -> padded_n u v mod chosen_t u v = 0 ->
  exists grids : Table,
    precompute_grids (chosen_t u v) = Ok grids /\
    let n := padded_n u v in
    let t := chosen_t u v in
    let st := assemble (ljust u n "$") (ljust v n "$") t (n / t)
                (State (init_F n) grids []) in
    Forall (fun key => valid_key t key /\ is_Some (grids !! key)) (st_keys st) /\
    missed_keys grids st = [] /\
    length (st_keys st) = (n / t) * (n / t) /\
    st_grids st = grids.
Proof.
  intros Hu Hv Ht0 Hmod. unfold chosen_t, padded_n in *.
  destruct (precompute_grids_lookup (block_size (padded_length (length u) (length v))))
    as (grids & Hg & _).
  exists grids. split; [done|]. cbv zeta.
  destruct (four_russians_blocks u v grids Hu Hv Ht0 Hmod Hg) as (_ & H1 & H2 & H3).
  set (n := padded_length (length u) (length v)) in *.
  set (t := block_size n) in *.
  set (st := assemble (ljust u n "$") (ljust v n "$") t (n / t)
               (State (init_F n) grids [])) in *.
  assert (Forall (fun key => valid_key t key /\ is_Some (grids !! key)) (st_keys st))
    as Hall.
  { eapply Forall_impl; [exact H2|]. intros key Hk. split; [done|].
    by apply (valid_key_present t). }
  split_and!; [done| |done..].
  apply no_missed_keys. eapply Forall_impl; [exact Hall|]. by intros key [_ ?].
Qed.

Lemma block_keys_present_witness :
  exists grids : Table,
    precompute_grids (chosen_t (str "ATCG") (str "ATCG")) = Ok grids /\
    let n := padded_n (str "ATCG") (str "ATCG") in
    let t := chosen_t (str "ATCG") (str "ATCG") in
    let st := assemble (ljust (str "ATCG") n "$") (ljust (str "ATCG") n "$") t (n / t)
                (State (init_F n) grids []) in
    Forall (fun key => valid_key t key /\ is_Some (grids !! key)) (st_keys st) /\
    missed_keys grids st = [] /\
    length (st_keys st) = (n / t) * (n / t) /\
    st_grids st = grids.
Proof.
  apply (block_keys_present (str "ATCG") (str "ATCG"));
    [apply alphabet_ATCG | apply alphabet_ATCG | discriminate | reflexivity].
Defined.

(** * Further properties of the code *)

(** ** The baseline computes longest common subsequences *)

Lemma sublist_take_S {A : Type} (l : list A) (i : nat) :
  take i l `sublist_of` take (S i) l.
Proof.
  replace (take i l) with (take i (take (S i) l)); [apply sublist_take|].
  rewrite take_take. f_equal. lia.
Qed.

Lemma sublist_singleton {A : Type} (l : list A) (x : A) :
  l `sublist_of` [x] -> l = [] \/ l = [x].
Proof.
  intros [H|(l' & -> & H)]%sublist_cons_r; apply sublist_nil_r in H; subst; auto.
Qed.

Lemma sublist_snoc_inv {A : Type} (w l : list A) (a : A) :
  w `sublist_of` l ++ [a] ->
  w `sublist_of` l \/ exists w', w = w' ++ [a] /\ w' `sublist_of` l.
Proof.
  intros (l1 & l2 & -> & H1 & H2)%sublist_app_r.
  apply sublist_singleton in H2 as [-> | ->].
  - left. by rewrite app_nil_r.
  - right. by exists l1.
Qed.

(** Some common subsequence of the prefixes has the length in the cell. *)
Lemma lcs_attained (u v : list ascii) (i j : nat) :
  exists w, w `sublist_of` take i u /\ w `sublist_of` take j v /\
            Z.of_nat (length w) = lcs u v i j.
Proof.
  revert j. induction i as [|i IHi]; intros j.
  { exists []. split_and!; [apply sublist_nil_l..|done]. }
  induction j as [|j IHj].
  { exists []. split_and!; [apply sublist_nil_l..|]. by rewrite lcs_0_r. }
  unfold lcs. rewrite cell_S_S. fold (lcs u v).
  destruct (same u v i j) eqn:Hs.
  - unfold same_with in Hs.
    destruct (u !! i) as [a|] eqn:Hu; [|done].
    destruct (v !! j) as [b|] eqn:Hv; [|done].
    apply bool_decide_eq_true in Hs as <-.
    destruct (IHi j) as (w & Hwu & Hwv & Hlen).
    exists (w ++ [a]). rewrite (take_S_r _ _ _ Hu), (take_S_r _ _ _ Hv).
    split_and!; [by apply sublist_app..|].
    rewrite length_app. simpl. pose proof (lcs_nonneg u v i j). lia.
  - destruct (Z.max_spec (lcs u v i (S j)) (lcs u v (S i) j)) as [[_ ->]|[_ ->]].
    + destruct IHj as (w & Hwu & Hwv & Hlen). exists w. split_and!; [done| |done].
      etrans; [apply Hwv|apply sublist_take_S].
    + destruct (IHi (S j)) as (w & Hwu & Hwv & Hlen). exists w.
      split_and!; [|done..]. etrans; [apply Hwu|apply sublist_take_S].
Qed.

(** No common subsequence of the prefixes is longer than the cell says. *)
Lemma lcs_bounds_sublists (u v : list ascii) (i j : nat) (w : list ascii) :
  w `sublist_of` take i u -> w `sublist_of` take j v ->
  (Z.of_nat (length w) <= lcs u v i j)%Z.
Proof.
  revert j w. induction i as [|i IHi]; intros j w Hwu Hwv.
  { apply sublist_nil_r in Hwu as ->. apply lcs_nonneg. }
  revert w Hwu Hwv. induction j as [|j IHj]; intros w Hwu Hwv.
  { apply sublist_nil_r in Hwv as ->. apply lcs_nonneg. }
  assert (w `sublist_of` take i u ->
          (Z.of_nat (length w) <= lcs u v (S i) (S j))%Z) as Hup.
  { intros H. etrans; [apply (IHi (S j) w H Hwv)|]. apply lcs_mono; lia. }
  assert (w `sublist_of` take j v ->
          (Z.of_nat (length w) <= lcs u v (S i) (S j))%Z) as Hleft.
  { intros H. etrans; [apply (IHj w Hwu H)|]. apply lcs_mono; lia. }
  destruct (u !! i) as [a|] eqn:Hu.
  2:{ apply Hup. apply lookup_ge_None in Hu. by rewrite !take_ge in * by lia. }
  destruct (v !! j) as [b|] eqn:Hv.
  2:{ apply Hleft. apply lookup_ge_None in Hv. by rewrite !take_ge in * by lia. }
  rewrite (take_S_r _ _ _ Hu) in Hwu. rewrite (take_S_r _ _ _ Hv) in Hwv.
  apply sublist_snoc_inv in Hwu as [Hwu|(w1 & -> & Hw1)]; [by apply Hup|].
  apply sublist_snoc_inv in Hwv as [Hwv|(w2 & Heq & Hw2)]; [by apply Hleft|].
  apply app_inj_tail in Heq as [-> ->].
  unfold lcs. rewrite cell_S_S. fold (lcs u v). unfold same_with.
  rewrite Hu, Hv. unfold char_eq. rewrite bool_decide_eq_true_2 by done.
  specialize (IHi j w2 Hw1 Hw2). rewrite length_app. simpl. lia.
Qed.

Lemma lcs_is_lcs_length (u v : list ascii) :
  lcs_length u v (lcs u v (length u) (length v)).
Proof.
  split.
  - destruct (lcs_attained u v (length u) (length v)) as (w & Hwu & Hwv & Hlen).
    rewrite take_ge in Hwu, Hwv by lia. by exists w.
  - intros w [Hwu Hwv]. apply lcs_bounds_sublists; by rewrite take_ge by lia.
Qed.

Lemma lcs_length_unique (u v : list ascii) (z z' : Z) :
  lcs_length u v z -> lcs_length u v z' -> z = z'.
Proof.
  intros [(w & Hw & Hl) Hmax] [(w' & Hw' & Hl') Hmax'].
  specialize (Hmax w' Hw'). specialize (Hmax' w Hw). lia.
Qed.

Lemma lcs_length_sym (u v : list ascii) (z : Z) : lcs_length u v z -> lcs_length v u z.
Proof.
  intros [(w & [H1 H2] & Hl) Hmax]. split.
  - exists w. by split.
  - intros w' [H1' H2']. by apply Hmax.
Qed.

(** X1.  With all-zero boundaries of the exact lengths, as the test
    harness calls it, [construct_lcs_grid] returns a grid whose cell
    [(i, j)] holds the length of a longest common subsequence of the first
    [i] symbols of [u] and the first [j] symbols of [v]. *)
Theorem construct_lcs_grid_longest (u v : list ascii) :
  exists dp : Grid,
    construct_lcs_grid u v (replicate (length u + 1) 0%Z)
                           (replicate (length v + 1) 0%Z) = Ok dp /\
    forall i j, i <= length u -> j <= length v ->
      exists z, dp !! (i, j) = Some z /\ lcs_length (take i u) (take j v) z.
Proof.
  destruct (construct_lcs_grid_lookup u v (replicate (length u + 1) 0%Z)
              (replicate (length v + 1) 0%Z)) as (dp & Hdp & Hlk);
    [by rewrite length_replicate..|].
  exists dp. split; [done|]. intros i j Hi Hj.
  exists (lcs u v i j). split.
  - rewrite Hlk, bool_decide_eq_true_2 by done. f_equal. apply cell_replicate_0.
  - split.
    + destruct (lcs_attained u v i j) as (w & Hwu & Hwv & Hlen). by exists w.
    + intros w [Hwu Hwv]. by apply lcs_bounds_sublists.
Qed.

(** ** [construct_lcs_grid]: errors, frame and symmetries *)

Lemma for_each_index_ok (l : list Z) (f : nat -> Z -> Grid -> Grid) (k a : nat)
    (dp : Grid) :
  a + k <= length l ->
  exists dp', for_each (seq a k) (fun i dp => x ← index l i; Ok (f i x dp)) dp = Ok dp'.
Proof.
  revert a dp. induction k as [|k IH]; intros a dp Hlen; simpl; [by eexists|].
  destruct (lookup_lt_is_Some_2 l a) as [x Hx]; [lia|].
  rewrite (index_Some _ _ _ Hx). simpl. apply IH. lia.
Qed.

Lemma for_each_index_raise (l : list Z) (f : nat -> Z -> Grid -> Grid) (k a : nat)
    (dp : Grid) :
  a <= length l -> length l < a + k ->
  for_each (seq a k) (fun i dp => x ← index l i; Ok (f i x dp)) dp = Raise IndexError.
Proof.
  revert a dp. induction k as [|k IH]; intros a dp Ha Hlen; simpl; [lia|].
  destruct (l !! a) as [x|] eqn:Hx.
  - rewrite (index_Some _ _ _ Hx). simpl. apply lookup_lt_Some in Hx.
    apply IH; lia.
  - unfold index. by rewrite Hx.
Qed.

Lemma construct_lcs_grid_short (u v : list ascii) (first_col first_row : list Z) :
  length first_col <= length u \/ length first_row <= length v ->
  construct_lcs_grid u v first_col first_row = Raise IndexError.
Proof.
  intros Hlen. unfold construct_lcs_grid, range.
  destruct (decide (length first_col <= length u)) as [Hc|Hc].
  - pose proof (for_each_index_raise first_col
                  (fun i x dp => <[(i, 0) := x]> dp)
                  (length u + 1 - 0) 0 ∅ ltac:(lia) ltac:(lia)) as Hr.
    simpl in Hr. by rewrite Hr.
  - destruct (for_each_index_ok first_col
                (fun i x dp => <[(i, 0) := x]> dp)
                (length u + 1 - 0) 0 ∅ ltac:(lia)) as [dp1 Hok].
    simpl in Hok. rewrite Hok. simpl.
    pose proof (for_each_index_raise first_row
                  (fun j x dp => <[(0, j) := x]> dp)
                  (length v + 1 - 0) 0 dp1 ltac:(lia) ltac:(lia)) as Hr.
    simpl in Hr. by rewrite Hr.
Qed.

(** X2.  [construct_lcs_grid] raises IndexError exactly when a boundary
    list is too short, that is has at most [len(u)] (column) or [len(v)]
    (row) entries; otherwise it returns a grid. *)
Theorem construct_lcs_grid_index_error (u v : list ascii)
    (first_col first_row : list Z) :
  (construct_lcs_grid u v first_col first_row = Raise IndexError <->
     length first_col <= length u \/ length first_row <= length v) /\
  ((exists dp, construct_lcs_grid u v first_col first_row = Ok dp) <->
     length u < length first_col /\ length v < length first_row).
Proof.
  pose proof (construct_lcs_grid_short u v first_col first_row) as Hshort.
  assert ((length u < length first_col /\ length v < length first_row) ->
          exists dp, construct_lcs_grid u v first_col first_row = Ok dp) as Hlong.
  { intros [Hc Hr].
    destruct (construct_lcs_grid_lookup u v first_col first_row)
      as (dp & Hdp & _); [lia..|]. by exists dp. }
  split; split.
  - intros Hraise. destruct (decide (length first_col <= length u)); [by left|].
    destruct (decide (length first_row <= length v)); [by right|].
    destruct Hlong as [dp Hdp]; [lia|]. congruence.
  - done.
  - intros [dp Hdp]. destruct (decide (length u < length first_col)).
    + destruct (decide (length v < length first_row)); [done|].
      rewrite Hshort in Hdp by lia. done.
    + rewrite Hshort in Hdp by lia. done.
  - done.
Qed.

(** X3.  Given long enough boundaries, the returned grid has exactly the
    keys [(i, j)] with [i <= len(u)] and [j <= len(v)], and it depends on
    the boundaries only through [first_row[0..len(v)]] and
    [first_col[1..len(u)]]: surplus entries and [first_col[0]] are
    ignored. *)
Theorem construct_lcs_grid_frame (u v : list ascii) (first_col first_row : list Z) :
  length u + 1 <= length first_col -> length v + 1 <= length first_row ->
  exists dp : Grid,
    construct_lcs_grid u v first_col first_row = Ok dp /\
    (forall i j, is_Some (dp !! (i, j)) <-> i <= length u /\ j <= length v) /\
    (forall first_col' first_row' : list Z,
       length u + 1 <= length first_col' -> length v + 1 <= length first_row' ->
       (forall i, 1 <= i <= length u -> first_col' !! i = first_col !! i) ->
       (forall j, j <= length v -> first_row' !! j = first_row !! j) ->
       construct_lcs_grid u v first_col' first_row' = Ok dp).
Proof.
  intros Hc Hr.
  destruct (construct_lcs_grid_lookup u v first_col first_row Hc Hr)
    as (dp & Hdp & Hlk).
  exists dp. split_and!; [done| |].
  - intros i j. rewrite Hlk. case_bool_decide; split; done.
  - intros fc' fr' Hc' Hr' Hcol Hrow.
    destruct (construct_lcs_grid_lookup u v fc' fr' Hc' Hr') as (dp' & Hdp' & Hlk').
    rewrite Hdp'. f_equal. apply map_eq. intros [a b].
    rewrite Hlk, Hlk'. case_bool_decide as Hab; [|done]. f_equal.
    destruct Hab as [Ha Hb].
    apply (cell_ext char_eq char_eq u v u v _ _ _ _ (length u) (length v));
      [done| | |done..].
    + intros b' Hb'. by rewrite !cell_0, Hrow.
    + intros [|a'] Ha'; [by rewrite !cell_0, Hrow by lia|].
      rewrite !cell_S_0, Hcol by lia. done.
Qed.

Lemma construct_lcs_grid_frame_witness :
  exists dp : Grid,
    construct_lcs_grid (str "AT") (str "A") [0; 1; 1]%Z [0; 1]%Z = Ok dp /\
    (forall i j, is_Some (dp !! (i, j)) <-> i <= 2 /\ j <= 1) /\
    (forall first_col' first_row' : list Z,
       2 + 1 <= length first_col' -> 1 + 1 <= length first_row' ->
       (forall i, 1 <= i <= 2 -> first_col' !! i = [0; 1; 1]%Z !! i) ->
       (forall j, j <= 1 -> first_row' !! j = [0; 1]%Z !! j) ->
       construct_lcs_grid (str "AT") (str "A") first_col' first_row' = Ok dp).
Proof.
  apply (construct_lcs_grid_frame (str "AT") (str "A") [0; 1; 1]%Z [0; 1]%Z);
    simpl; lia.
Defined.

Lemma default_nonneg_lookup (l : list Z) (k : nat) :
  Forall (fun x => (0 <= x)%Z) l -> (0 <= default 0%Z (l !! k))%Z.
Proof.
  intros H. destruct (l !! k) as [x|] eqn:Hx; [|done].
  apply (Forall_lookup_1 _ _ _ _ H Hx).
Qed.

Lemma cell_shift (u v : list ascii) (fc fr : list Z) (c : Z) :
  (0 <= c)%Z ->
  Forall (fun x => (0 <= x)%Z) fc -> Forall (fun x => (0 <= x)%Z) fr ->
  forall a b, a < length fc -> b < length fr ->
    cell u v (map (Z.add c) fc) (map (Z.add c) fr) a b
    = (c + cell u v fc fr a b)%Z.
Proof.
  intros Hc Hfc Hfr.
  assert (forall a b, (0 <= cell u v fc fr a b)%Z) as Hpos.
  { apply cell_nonneg.
    - intros j. rewrite cell_0. by apply default_nonneg_lookup.
    - intros [|i]; [rewrite cell_0|rewrite cell_S_0]; by apply default_nonneg_lookup. }
  induction a as [|a IHa]; intros b Ha Hb.
  { rewrite !cell_0, list_lookup_fmap.
    destruct (lookup_lt_is_Some_2 fr b Hb) as [x ->]. done. }
  induction b as [|b IHb].
  { rewrite !cell_S_0, list_lookup_fmap.
    destruct (lookup_lt_is_Some_2 fc (S a) Ha) as [x ->]. done. }
  rewrite !cell_S_S.
  rewrite (IHa b), (IHa (S b)), IHb by lia.
  pose proof (Hpos a b). destruct (same u v a b); lia.
Qed.

(** X4.  Translation invariance.  When the boundary values are
    non-negative, adding a constant [c >= 0] to every boundary entry adds
    [c] to every cell of the grid [construct_lcs_grid] returns. *)
Theorem construct_lcs_grid_shift (u v : list ascii) (first_col first_row : list Z)
    (c : Z) :
  length u + 1 <= length first_col -> length v + 1 <= length first_row ->
  Forall (fun x => (0 <= x)%Z) first_col -> Forall (fun x => (0 <= x)%Z) first_row ->
  (0 <= c)%Z ->
  exists dp : Grid,
    construct_lcs_grid u v first_col first_row = Ok dp /\
    construct_lcs_grid u v (map (Z.add c) first_col) (map (Z.add c) first_row)
    = Ok (Z.add c <$> dp).
Proof.
  intros Hlc Hlr Hfc Hfr Hc.
  destruct (construct_lcs_grid_lookup u v first_col first_row Hlc Hlr)
    as (dp & Hdp & Hlk).
  destruct (construct_lcs_grid_lookup u v (map (Z.add c) first_col)
              (map (Z.add c) first_row)) as (dp' & Hdp' & Hlk');
    [by rewrite length_map..|].
  exists dp. split; [done|]. rewrite Hdp'. f_equal. apply map_eq. intros [a b].
  rewrite lookup_fmap, Hlk, Hlk'. case_bool_decide as Hab; [|done]. simpl.
  f_equal. apply cell_shift; [done..|lia|lia].
Qed.

Lemma construct_lcs_grid_shift_witness :
  exists dp : Grid,
    construct_lcs_grid (str "AT") (str "TA") [0; 1; 1]%Z [0; 0; 1]%Z = Ok dp /\
    construct_lcs_grid (str "AT") (str "TA") (map (Z.add 5) [0; 1; 1]%Z)
                       (map (Z.add 5) [0; 0; 1]%Z)
    = Ok (Z.add 5 <$> dp).
Proof.
  apply (construct_lcs_grid_shift (str "AT") (str "TA") [0; 1; 1]%Z [0; 0; 1]%Z 5%Z);
    [simpl; lia | simpl; lia | repeat constructor; lia | repeat constructor; lia | lia].
Defined.

Lemma same_sym (u v : list ascii) (a b : nat) : same v u b a = same u v a b.
Proof.
  unfold same_with. destruct (u !! a), (v !! b); try done.
  unfold char_eq. apply bool_decide_ext. split; congruence.
Qed.

Lemma cell_transpose (u v : list ascii) (fc fr : list Z) :
  fc !! 0 = fr !! 0 ->
  forall a b, cell v u fr fc b a = cell u v fc fr a b.
Proof.
  intros H0. induction a as [|a IHa]; intros b.
  { destruct b as [|b]; [by rewrite !cell_0, H0|by rewrite cell_S_0, cell_0]. }
  induction b as [|b IHb]; [by rewrite cell_0, cell_S_0|].
  rewrite !cell_S_S, same_sym, (IHa b), (IHa (S b)), IHb.
  destruct (same u v a b); [done|apply Z.max_comm].
Qed.

(** X5.  Transposition.  When the two boundaries start with the same
    value, swapping the strings together with the boundaries gives the
    transposed grid: cell [(j, i)] of the swapped call is cell [(i, j)] of
    the original one. *)
Theorem construct_lcs_grid_transpose (u v : list ascii)
    (first_col first_row : list Z) :
  length u + 1 <= length first_col -> length v + 1 <= length first_row ->
  first_col !! 0 = first_row !! 0 ->
  exists dp dp' : Grid,
    construct_lcs_grid u v first_col first_row = Ok dp /\
    construct_lcs_grid v u first_row first_col = Ok dp' /\
    forall i j, dp' !! (j, i) = dp !! (i, j).
Proof.
  intros Hlc Hlr H0.
  destruct (construct_lcs_grid_lookup u v first_col first_row Hlc Hlr)
    as (dp & Hdp & Hlk).
  destruct (construct_lcs_grid_lookup v u first_row first_col Hlr Hlc)
    as (dp' & Hdp' & Hlk').
  exists dp, dp'. split_and!; [done..|]. intros i j. rewrite Hlk, Hlk'.
  destruct (decide (i <= length u /\ j <= length v)) as [Hij|Hij].
  - rewrite !bool_decide_eq_true_2 by tauto. f_equal. by apply cell_transpose.
  - rewrite !bool_decide_eq_false_2 by tauto. done.
Qed.

Lemma construct_lcs_grid_transpose_witness :
  exists dp dp' : Grid,
    construct_lcs_grid (str "ATC") (str "TA") [0; 1; 1; 2]%Z [0; 0; 1]%Z = Ok dp /\
    construct_lcs_grid (str "TA") (str "ATC") [0; 0; 1]%Z [0; 1; 1; 2]%Z = Ok dp' /\
    forall i j, dp' !! (j, i) = dp !! (i, j).
Proof.
  apply (construct_lcs_grid_transpose (str "ATC") (str "TA")
           [0; 1; 1; 2]%Z [0; 0; 1]%Z); [simpl; lia | simpl; lia | reflexivity].
Defined.

(** ** The generators count upwards *)

Lemma lookup_flat_map_const {A B : Type} (f : A -> list B) (c : nat) (xs : list A)
    (k : nat) (w : B) :
  (forall x, length (f x) = c) ->
  flat_map f xs !! k = Some w ->
  exists d x, xs !! d = Some x /\ d * c <= k /\ f x !! (k - d * c) = Some w.
Proof.
  intros Hc. revert k. induction xs as [|x xs IH]; intros k; simpl; [done|].
  intros [H|[Hk H]]%lookup_app_Some.
  - exists 0, x. split_and!; [done|lia|]. by rewrite Nat.sub_0_r.
  - destruct (IH _ H) as (d & x' & Hx' & Hd & Hw). rewrite Hc in *.
    exists (S d), x'. split_and!; [done|lia|].
    by replace (k - S d * c) with (k - c - d * c) by lia.
Qed.

Section enumeration.
Context {A : Type} (alphabet : list A) (gen : nat -> list A -> list (list A)).
Context (digit : A -> nat).
Hypothesis gen_0 : forall cur, gen 0 cur = [cur].
Hypothesis gen_S : forall l cur,
  gen (S l) cur = flat_map (fun x => gen l (cur ++ [x])) alphabet.
Hypothesis digit_spec : forall d x, alphabet !! d = Some x -> digit x = d.

Lemma gen_decode (l : nat) (cur : list A) (k : nat) (w : list A) (acc : nat) :
  gen l cur !! k = Some w ->
  exists rest, w = cur ++ rest /\
    foldl (fun acc x => length alphabet * acc + digit x) acc rest
    = acc * length alphabet ^ l + k.
Proof.
  revert cur k acc. induction l as [|l IH]; intros cur k acc.
  - rewrite gen_0. intros Hk. destruct k as [|k]; [|done]. simplify_eq/=.
    exists []. rewrite app_nil_r. split; [done|]. simpl. lia.
  - rewrite gen_S. intros Hk.
    apply (lookup_flat_map_const _ (length alphabet ^ l)) in Hk
      as (d & x & Hx & Hd & Hw); [|intros y; by apply length_gen].
    apply (IH _ _ (length alphabet * acc + digit x)) in Hw as (rest & -> & Hv).
    exists (x :: rest). rewrite <- app_assoc. split; [done|]. simpl.
    rewrite Hv, (digit_spec _ _ Hx). simpl. nia.
Qed.

Lemma gen_word_value (l k : nat) (w : list A) :
  gen l [] !! k = Some w -> word_value (length alphabet) digit w = k.
Proof.
  intros (rest & -> & Hv)%(gen_decode _ _ _ _ 0). unfold word_value. simpl.
  rewrite Hv. lia.
Qed.
End enumeration.

Lemma position_bits (d : nat) (x : Z) : bits !! d = Some x -> position bits x = d.
Proof.
  unfold bits. destruct d as [|[|d]]; intros; by simplify_eq/=.
Qed.

Lemma position_bases (d : nat) (x : ascii) : bases !! d = Some x -> position bases x = d.
Proof.
  unfold bases. destruct d as [|[|[|[|[|d]]]]]; intros; by simplify_eq/=.
Qed.

(** X6.  [offset_vectors_generator t] counts in binary: the vector it
    yields at position [k] is the one of length [t], with entries 0 and 1,
    that spells [k] with its first entry as the most significant bit; and
    every such vector is yielded. *)
Theorem offset_vectors_generator_order (t k : nat) (w : list Z) :
  offset_vectors_generator t !! k = Some w <->
  word_over bits t w /\ word_value 2 (position bits) w = k.
Proof.
  split.
  - intros Hk. split.
    + apply elem_of_offset_vectors. by eapply list_elem_of_lookup_2.
    + apply (gen_word_value bits offset_vectors_from (position bits)
               ltac:(done) ltac:(done) position_bits t k w Hk).
  - intros [Hw Hv]. apply elem_of_offset_vectors in Hw.
    apply list_elem_of_lookup_1 in Hw as [k' Hk'].
    pose proof (gen_word_value bits offset_vectors_from (position bits)
                  ltac:(done) ltac:(done) position_bits t k' w Hk') as Hv'.
    change (length bits) with 2 in Hv'. by rewrite <- Hv, Hv'.
Qed.

(** X7.  [generate_strings] counts in base 5 with the digits
    [A < T < C < G < $]: the string at position [k] of
    [generate_strings(t)] is the one of length [t] over these five
    symbols that spells [k]; and every such string is generated. *)
Theorem generate_strings_order (t k : nat) (w : list ascii) :
  generate_strings t [] !! k = Some w <->
  word_over bases t w /\ word_value 5 (position bases) w = k.
Proof.
  split.
  - intros Hk. split.
    + apply elem_of_generate_strings. by eapply list_elem_of_lookup_2.
    + apply (gen_word_value bases generate_strings (position bases)
               ltac:(done) ltac:(done) position_bases t k w Hk).
  - intros [Hw Hv]. apply elem_of_generate_strings in Hw.
    apply list_elem_of_lookup_1 in Hw as [k' Hk'].
    pose proof (gen_word_value bases generate_strings (position bases)
                  ltac:(done) ltac:(done) position_bases t k' w Hk') as Hv'.
    change (length bases) with 5 in Hv'. by rewrite <- Hv, Hv'.
Qed.

(** ** The block table is a faithful memo *)

(** X8.  Every entry of the table [precompute_grids t] builds is the
    grid [construct_lcs_grid] returns for the key's two strings, with the
    boundaries [sum(offsets[:i])] of the key's two offset vectors; later
    iterations overwrite no earlier entry with another grid.  A key is
    present exactly when its strings have length [t] over A, T, C, G, $
    and its vectors have length [t] over 0, 1. *)
Theorem precompute_grids_memo (t : nat) :
  exists grids : Table,
    precompute_grids t = Ok grids /\
    forall (u v : list ascii) (first_row_offsets first_col_offsets : list Z),
      match grids !! (u, v, first_row_offsets, first_col_offsets) with
      | Some g =>
          (word_over bases t u /\ word_over bases t v /\
           word_over bits t first_row_offsets /\ word_over bits t first_col_offsets) /\
          construct_lcs_grid u v
            (map (sum_prefix first_col_offsets) (range 0 (t + 1)))
            (map (sum_prefix first_row_offsets) (range 0 (t + 1))) = Ok g
      | None =>
          ~ (word_over bases t u /\ word_over bases t v /\
             word_over bits t first_row_offsets /\ word_over bits t first_col_offsets)
      end.
Proof.
  destruct (precompute_grids_lookup t) as (grids & Hg & Hk).
  exists grids. split; [done|]. intros u v ro co.
  destruct (Hk (u, v, ro, co)) as [(Hv & x & Hx & ->)|[Hn ->]]; [|done].
  split; [done|]. apply Hx.
Qed.

(** ** [four_russians] and longest common subsequences *)

Lemma four_russians_value (u v : list ascii) :
  Forall (fun x => x ∈ alphabet) u -> Forall (fun x => x ∈ alphabet) v ->
  chosen_t u v = 0 \/ padded_n u v mod chosen_t u v = 0 ->
  four_russians u v = Ok (lcs u v (length u) (length v)).
Proof.
  intros Hu Hv Hcase. unfold chosen_t, padded_n in Hcase.
  pose proof (padded_bounds u v) as (Hlu & Hlv & _).
  rewrite <- (lcs_ljust u v (padded_length (length u) (length v)));
    [|eapply Forall_impl; [done|apply alphabet_not_sentinel]|done..].
  destruct (decide (block_size (padded_length (length u) (length v)) = 0)) as [Ht0|Ht0].
  { by apply four_russians_small. }
  destruct Hcase as [?|Hmod]; [done|].
  destruct (precompute_grids_lookup (block_size (padded_length (length u) (length v))))
    as (grids & Hg & _).
  by destruct (four_russians_blocks u v grids Hu Hv Ht0 Hmod Hg) as [-> _].
Qed.

Lemma four_russians_not_value (u v : list ascii) :
  ~ (chosen_t u v = 0 \/ padded_n u v mod chosen_t u v = 0) ->
  four_russians u v = Raise AssertionError.
Proof.
  intros Hcase. apply four_russians_assert; unfold chosen_t, padded_n in Hcase; lia.
Qed.

Lemma padded_n_sym (u v : list ascii) : padded_n u v = padded_n v u.
Proof. unfold padded_n, padded_length. by rewrite Nat.max_comm. Qed.

Lemma chosen_t_sym (u v : list ascii) : chosen_t u v = chosen_t v u.
Proof. unfold chosen_t. by rewrite padded_n_sym. Qed.

(** X9.  On sequences over A, T, C, G, a call of [four_russians] that
    passes the block-size assertion returns the length of a longest common
    subsequence of the two (unpadded) inputs: some common subsequence has
    that length and none is longer. *)
Theorem four_russians_longest (u v : list ascii) :
  Forall (fun x => x ∈ alphabet) u -> Forall (fun x => x ∈ alphabet) v ->
  chosen_t u v = 0 \/ padded_n u v mod chosen_t u v = 0 ->
  exists z : Z, four_russians u v = Ok z /\ lcs_length u v z.
Proof.
  intros Hu Hv Hcase. exists (lcs u v (length u) (length v)).
  split; [by apply four_russians_value|apply lcs_is_lcs_length].
Qed.

Lemma four_russians_longest_witness :
  exists z : Z, four_russians (str "ATCG") (str "TCGA") = Ok z /\
                lcs_length (str "ATCG") (str "TCGA") z.
Proof.
  apply (four_russians_longest (str "ATCG") (str "TCGA"));
    [repeat constructor; compute_done | repeat constructor; compute_done
    | right; reflexivity].
Defined.

(** X10.  [four_russians] is symmetric in its two arguments on sequences
    over A, T, C, G: swapping them gives the same score, or the same
    assertion failure. *)
Theorem four_russians_sym (u v : list ascii) :
  Forall (fun x => x ∈ alphabet) u -> Forall (fun x => x ∈ alphabet) v ->
  four_russians u v = four_russians v u.
Proof.
  intros Hu Hv.
  destruct (decide (chosen_t u v = 0 \/ padded_n u v mod chosen_t u v = 0))
    as [Hcase|Hcase].
  - rewrite (four_russians_value u v) by done.
    rewrite (four_russians_value v u)
      by (try done; by rewrite <- chosen_t_sym, <- padded_n_sym).
    f_equal. eapply lcs_length_unique; [apply lcs_is_lcs_length|].
    apply lcs_length_sym, lcs_is_lcs_length.
  - rewrite (four_russians_not_value u v) by done.
    rewrite (four_russians_not_value v u)
      by (by rewrite <- chosen_t_sym, <- padded_n_sym).
    done.
Qed.

Lemma four_russians_sym_witness :
  four_russians (str "ATCGA") (str "GAT") = four_russians (str "GAT") (str "ATCGA").
Proof.
  apply (four_russians_sym (str "ATCGA") (str "GAT")); repeat constructor; compute_done.
Defined.

(** X11.  A score returned by [four_russians] on sequences over A, T, C,
    G lies between 0 and the length of the shorter input; it is the full
    length when the two inputs are equal, and 0 when one is empty. *)
Theorem four_russians_bounds (u v : list ascii) (z : Z) :
  Forall (fun x => x ∈ alphabet) u -> Forall (fun x => x ∈ alphabet) v ->
  four_russians u v = Ok z ->
  (0 <= z <= Z.of_nat (Nat.min (length u) (length v)))%Z /\
  (u = v -> z = Z.of_nat (length u)) /\
  (u = [] \/ v = [] -> z = 0%Z).
Proof.
  intros Hu Hv Hret.
  destruct (decide (chosen_t u v = 0 \/ padded_n u v mod chosen_t u v = 0))
    as [Hcase|Hcase]; [|by rewrite four_russians_not_value in Hret].
  rewrite four_russians_value in Hret by done.
  assert (z = lcs u v (length u) (length v)) as -> by congruence.
  destruct (lcs_is_lcs_length u v) as [(w & [Hwu Hwv] & Hlen) Hmax].
  apply sublist_length in Hwu as Hlu. apply sublist_length in Hwv as Hlv.
  assert (0 <= lcs u v (length u) (length v)
          <= Z.of_nat (Nat.min (length u) (length v)))%Z as Hb by lia.
  split; [exact Hb|split].
  - intros <-. specialize (Hmax u (conj (reflexivity u) (reflexivity u))). lia.
  - intros [Hnil|Hnil]; apply (f_equal length) in Hnil; simpl in Hnil; lia.
Qed.

Lemma four_russians_bounds_witness :
  (0 <= 2 <= Z.of_nat (Nat.min (length (str "ATCG")) (length (str "TTCC"))))%Z /\
  (str "ATCG" = str "TTCC" -> 2%Z = Z.of_nat (length (str "ATCG"))) /\
  (str "ATCG" = [] \/ str "TTCC" = [] -> 2%Z = 0%Z).
Proof.
  apply (four_russians_bounds (str "ATCG") (str "TTCC") 2%Z);
    [repeat constructor; compute_done | repeat constructor; compute_done
    | vm_compute; reflexivity].
Defined.

(** ** The padding loop *)

Lemma pow2_loop_fuel (fuel fuel' p bound : nat) :
  1 <= p -> bound <= p + fuel -> bound <= p + fuel' ->
  pow2_loop fuel p bound = pow2_loop fuel' p bound.
Proof.
  revert fuel' p. induction fuel as [|fuel IH]; intros fuel' p Hp Hf Hf'.
  - simpl. destruct fuel' as [|fuel']; [done|]. simpl.
    by rewrite (proj2 (Nat.ltb_ge p bound)) by lia.
  - simpl. destruct (p <? bound) eqn:Hlt.
    + apply Nat.ltb_lt in Hlt. destruct fuel' as [|fuel']; [lia|]. simpl.
      rewrite (proj2 (Nat.ltb_lt p bound)) by done. apply IH; lia.
    + destruct fuel' as [|fuel']; [done|]. simpl. by rewrite Hlt.
Qed.

(** X12.  The loop [while next_power_of_2 < max(m, n)] stops by its own
    test at the least power of two that is at least both lengths (1 for
    two empty inputs): allowing the loop more iterations never changes
    the result. *)
Theorem padded_length_least (m n : nat) :
  is_pow2 (padded_length m n) /\
  m <= padded_length m n /\ n <= padded_length m n /\
  (forall p, is_pow2 p -> m <= p -> n <= p -> padded_length m n <= p) /\
  (forall fuel, Nat.max m n <= fuel ->
     pow2_loop fuel 1 (Nat.max m n) = padded_length m n).
Proof.
  destruct (padded_length_exit m n) as (Hge & k & Hk & Hmin).
  split_and!; [by exists k|lia|lia| |].
  - intros p [k' ->] Hm Hn. rewrite Hk. apply Nat.pow_le_mono_r; [lia|].
    destruct Hmin as [->|Hmin]; [lia|].
    assert (2 ^ (k - 1) < 2 ^ k') as Hlt by lia.
    apply Nat.pow_lt_mono_r_iff in Hlt; lia.
  - intros fuel Hfuel. unfold padded_length. apply pow2_loop_fuel; lia.
Qed.

(** ** Which input sizes fail *)

Lemma divide_pow2 (k t : nat) : Nat.divide t (2 ^ k) -> is_pow2 t.
Proof.
  revert t. induction k as [|k IH]; intros t Hd.
  { apply Nat.divide_1_r in Hd as ->. by exists 0. }
  rewrite Nat.pow_succ_r' in Hd. destruct Hd as [c Hc].
  destruct (Nat.Even_or_Odd t) as [[t' ->]|[t' ->]].
  - destruct (IH t') as [j ->]; [exists c; nia|].
    exists (S j). by rewrite Nat.pow_succ_r'.
  - destruct (Nat.Even_or_Odd c) as [[c' ->]|[c' ->]]; [|nia].
    apply IH. exists c'. nia.
Qed.

Lemma pow2_mod_pow2 (k j : nat) : 2 ^ j <= k -> 2 ^ k mod 2 ^ j = 0.
Proof.
  intros Hj. assert (j <= k) as Hle.
  { pose proof (Nat.pow_gt_lin_r 2 j ltac:(lia)). lia. }
  replace k with ((k - j) + j) by lia. rewrite Nat.pow_add_r.
  apply Nat.Div0.mod_mul.
Qed.

Lemma block_size_pow2 (k : nat) : block_size (2 ^ k) = k / 2.
Proof.
  unfold block_size, log4.
  assert (0 < 2 ^ k) as Hpos by (apply Nat.neq_0_lt_0, Nat.pow_nonzero; lia).
  rewrite (proj2 (Nat.ltb_lt 0 (2 ^ k)) Hpos), Nat.log2_pow2 by lia. done.
Qed.

(** X13.  Which calls fail depends on the lengths alone.  The padded
    length is [2^k] and the block size is [k // 2]; [four_russians] raises
    the block-size AssertionError exactly when [k // 2] is neither 0 nor a
    power of two, and returns a score exactly otherwise, whatever the
    symbols of the inputs. *)
Theorem four_russians_fails_iff (u v : list ascii) :
  exists k : nat,
    padded_n u v = 2 ^ k /\ chosen_t u v = k / 2 /\
    (four_russians u v = Raise AssertionError <-> k / 2 <> 0 /\ ~ is_pow2 (k / 2)) /\
    ((exists z, four_russians u v = Ok z) <-> k / 2 = 0 \/ is_pow2 (k / 2)).
Proof.
  destruct (padded_length_exit (length u) (length v)) as (_ & k & Hk & _).
  exists k. unfold chosen_t, padded_n. rewrite Hk, block_size_pow2.
  split_and!; [done..| |].
  - split.
    + intros Hraise. split.
      * intros H0. rewrite four_russians_small in Hraise; [done|].
        by rewrite Hk, block_size_pow2.
      * intros [j Hj].
        destruct (four_russians_returns u v) as [z Hz]; [|congruence].
        right. rewrite Hk, block_size_pow2, Hj. apply pow2_mod_pow2.
        rewrite <- Hj. apply Nat.Div0.div_le_upper_bound. lia.
    + intros [H0 Hnp]. apply four_russians_assert; rewrite Hk, block_size_pow2; [done|].
      intros Hmod. apply Hnp. apply (divide_pow2 k).
      by apply Nat.Lcm0.mod_divide.
  - split.
    + intros [z Hz]. destruct (decide (k / 2 = 0)) as [|H0]; [by left|right].
      destruct (decide (2 ^ k mod (k / 2) = 0)) as [Hmod|Hmod].
      * apply (divide_pow2 k). by apply Nat.Lcm0.mod_divide.
      * rewrite four_russians_assert in Hz; [done|by rewrite Hk, block_size_pow2..].
    + intros Hcase. apply four_russians_returns. rewrite Hk, block_size_pow2.
      destruct Hcase as [H0|[j Hj]]; [by left|right].
      rewrite Hj. apply pow2_mod_pow2. rewrite <- Hj.
      apply Nat.Div0.div_le_upper_bound. lia.
Qed.

(** X14.  Every call whose longer input has between 33 and 128 symbols
    fails with the block-size AssertionError: the padded length is 64 or
    128, the block size 3, and 3 divides neither. *)
Theorem four_russians_fails_33_to_128 (u v : list ascii) :
  33 <= Nat.max (length u) (length v) <= 128 ->
  four_russians u v = Raise AssertionError.
Proof.
  intros Hlen.
  destruct (padded_length_exit (length u) (length v)) as (Hge & k & Hk & Hmin).
  assert (k = 6 \/ k = 7) as Hk67.
  { assert (6 <= k).
    { destruct (decide (6 <= k)); [done|]. exfalso.
      assert (2 ^ k <= 2 ^ 5) by (apply Nat.pow_le_mono_r; lia).
      change (2 ^ 5) with 32 in *. lia. }
    destruct Hmin as [->|Hmin]; [lia|].
    assert (2 ^ (k - 1) < 2 ^ 7) as Hlt by (change (2 ^ 7) with 128; lia).
    apply Nat.pow_lt_mono_r_iff in Hlt; lia. }
  apply four_russians_assert; rewrite Hk, block_size_pow2;
    destruct Hk67 as [-> | ->]; by vm_compute.
Qed.

Lemma four_russians_fails_33_to_128_witness :
  four_russians run_of_33 run_of_33 = Raise AssertionError.
Proof.
  apply (four_russians_fails_33_to_128 run_of_33 run_of_33).
  unfold run_of_33. rewrite length_replicate. lia.
Defined.

(** ** The main grid holds block edges only *)

Lemma keys_within_insert (P : nat * nat -> Prop) (F : Grid) (k : nat * nat) (x : Z) :
  P k -> keys_within P F -> keys_within P (<[k := x]> F).
Proof.
  intros Hk HF k'. destruct (decide (k = k')) as [<-|Hne]; [done|].
  rewrite lookup_insert_ne by done. apply HF.
Qed.

Lemma keys_within_getitem (P : nat * nat -> Prop) (F : Grid) (k : nat * nat) :
  P k -> keys_within P F -> keys_within P (getitem F k).2.
Proof.
  intros Hk HF. unfold getitem. destruct (F !! k); simpl; [done|].
  by apply keys_within_insert.
Qed.

Lemma keys_within_offsets_of (P : nat * nat -> Prop) (ks : list nat)
    (hi lo : nat -> nat * nat) (F : Grid) :
  (forall k, k ∈ ks -> P (hi k) /\ P (lo k)) ->
  keys_within P F -> keys_within P (offsets_of F ks hi lo).2.
Proof.
  revert F. induction ks as [|k ks IH]; intros F Hks HF; simpl; [done|].
  destruct (Hks k) as [Hhi Hlo]; [by left|].
  pose proof (keys_within_getitem P F (hi k) Hhi HF) as H1.
  destruct (getitem F (hi k)) as [a F1]. simpl in H1.
  pose proof (keys_within_getitem P F1 (lo k) Hlo H1) as H2.
  destruct (getitem F1 (lo k)) as [b F2]. simpl in H2.
  assert (forall k', k' ∈ ks -> P (hi k') /\ P (lo k')) as Hks'.
  { intros k' Hk'. apply Hks. by right. }
  pose proof (IH F2 Hks' H2) as H3.
  destruct (offsets_of F2 ks hi lo) as [r F3]. done.
Qed.

Lemma elem_of_range (a b k : nat) : k ∈ range a b <-> a <= k < b.
Proof. unfold range. rewrite list_elem_of_In, in_seq. lia. Qed.

Lemma block_step_keys (u v : list ascii) (t q i j : nat) (st : state) :
  i < q -> j < q ->
  keys_within (block_edge (q * t) t) (st_F st) ->
  keys_within (block_edge (q * t) t) (st_F (block_step u v t i j st)).
Proof.
  intros Hi Hj HF.
  assert ((i + 1) * t <= q * t) as Hib by (apply Nat.mul_le_mono_r; lia).
  assert ((j + 1) * t <= q * t) as Hjb by (apply Nat.mul_le_mono_r; lia).
  assert (forall a, (a * t) mod t = 0) as Hmod by (intros a; apply Nat.Div0.mod_mul).
  unfold block_step.
  pose proof (keys_within_offsets_of (block_edge (q * t) t) (range 0 t)
                (fun k => (i * t, j * t + k + 1)) (fun k => (i * t, j * t + k))
                (st_F st)) as H1.
  destruct (offsets_of (st_F st) (range 0 t) _ _) as [ro F1]. simpl in H1.
  assert (keys_within (block_edge (q * t) t) F1) as HF1.
  { apply H1; [|done]. intros k Hk%elem_of_range.
    split; (split_and!; simpl; [lia|lia|by left]). }
  pose proof (keys_within_offsets_of (block_edge (q * t) t) (range 0 t)
                (fun k => (i * t + k + 1, j * t)) (fun k => (i * t + k, j * t))
                F1) as H2.
  destruct (offsets_of F1 (range 0 t) _ _) as [co F2]. simpl in H2.
  assert (keys_within (block_edge (q * t) t) F2) as HF2.
  { apply H2; [|done]. intros k Hk%elem_of_range.
    split; (split_and!; simpl; [lia|lia|by right]). }
  destruct (table_getitem (st_grids st) _) as [lcs_grid grids].
  pose proof (keys_within_getitem (block_edge (q * t) t) F2 (i * t, j * t)) as H3.
  destruct (getitem F2 (i * t, j * t)) as [offset F3]. simpl in H3 |- *.
  assert (keys_within (block_edge (q * t) t) F3) as HF3.
  { apply H3; [|done]. split_and!; simpl; [lia|lia|by left]. }
  apply (foldl_range_inv
           (fun _ F => keys_within (block_edge (q * t) t) F)); [done|].
  intros k F Hk HFk. simpl.
  apply keys_within_insert; [split_and!; simpl; [lia|lia|by left]|].
  apply keys_within_insert; [split_and!; simpl; [lia|lia|by right]|done].
Qed.

Lemma assemble_keys (u v : list ascii) (t q : nat) (st : state) :
  keys_within (block_edge (q * t) t) (st_F st) ->
  keys_within (block_edge (q * t) t) (st_F (assemble u v t q st)).
Proof.
  intros HF. unfold assemble.
  apply (foldl_range_inv
           (fun _ st => keys_within (block_edge (q * t) t) (st_F st))); [done|].
  intros i st' Hi Hst. simpl.
  apply (foldl_range_inv
           (fun _ st => keys_within (block_edge (q * t) t) (st_F st))); [done|].
  intros j st'' Hj Hst'. simpl. apply block_step_keys; [lia|lia|done].
Qed.

Lemma init_F_cells (n a b : nat) :
  init_F n !! (a, b) =
  if bool_decide ((a = 0 /\ b <= n) \/ (b = 0 /\ a <= n)) then Some 0%Z else None.
Proof. apply (init_F_lookup [] [] 1 0); [lia|done|done]. Qed.

Lemma init_F_keys (n t : nat) : keys_within (block_edge n t) (init_F n).
Proof.
  intros [a b]. rewrite init_F_cells. case_bool_decide as H; [|by intros [? ?]].
  intros _. unfold block_edge. simpl.
  destruct H as [[-> ?]|[-> ?]]; (split_and!; [lia|lia|]);
    [left|right]; apply Nat.Div0.mod_0_l.
Qed.

(** X15.  Whatever the strings and whatever the block table, the
    assembly loop of [four_russians] stores main-grid cells only on block
    edges: every key of the final grid [F] lies within
    [0..q*t] x [0..q*t] and has a row or a column that is a multiple of
    [t].  No interior cell of a block is ever written, nor created by a
    read. *)
Theorem assemble_only_block_edges (u v : list ascii) (t q : nat) (grids : Table)
    (a b : nat) :
  is_Some (st_F (assemble u v t q (State (init_F (q * t)) grids [])) !! (a, b)) ->
  a <= q * t /\ b <= q * t /\ (a mod t = 0 \/ b mod t = 0).
Proof.
  intros Hab.
  apply (assemble_keys u v t q (State (init_F (q * t)) grids [])
           (init_F_keys (q * t) t) (a, b) Hab).
Qed.

Lemma assemble_only_block_edges_witness :
  2 <= 2 * 2 /\ 3 <= 2 * 2 /\ (2 mod 2 = 0 \/ 3 mod 2 = 0).
Proof.
  apply (assemble_only_block_edges (str "ATCG") (str "TCGA") 2 2 ∅ 2 3).
  vm_compute. eexists. reflexivity.
Defined.

(** ** The main grid after the assembly *)

Lemma lcs_prefix_length (u v : list ascii) (i j : nat) :
  lcs_length (take i u) (take j v) (lcs u v i j).
Proof.
  split.
  - destruct (lcs_attained u v i j) as (w & Hwu & Hwv & Hlen). by exists w.
  - intros w [Hwu Hwv]. by apply lcs_bounds_sublists.
Qed.

Lemma split_index (t q a : nat) :
  0 < t -> 0 < a <= q * t -> exists i k, i < q /\ k <= t /\ a = i * t + k.
Proof.
  intros Ht Ha. set (i := (a - 1) / t).
  assert (i * t <= a - 1) as H1.
  { subst i. rewrite Nat.mul_comm. apply Nat.Div0.mul_div_le. }
  assert (a - 1 < (i + 1) * t) as H2.
  { subst i. pose proof (Nat.mul_succ_div_gt (a - 1) t ltac:(lia)). lia. }
  assert (i < q) as H3.
  { destruct (decide (i < q)); [done|]. exfalso.
    assert (q * t <= i * t) by (apply Nat.mul_le_mono_r; lia). lia. }
  exists i, (a - i * t). split_and!; [done|lia|lia].
Qed.

Lemma multiple_index (t q b : nat) :
  b mod t = 0 -> 0 < b <= q * t -> exists j, j < q /\ b = (j + 1) * t.
Proof.
  intros Hmod Hb. apply Nat.Lcm0.mod_divide in Hmod as [c ->].
  destruct c as [|c]; [lia|]. exists c. split; [nia|lia].
Qed.

Lemma has_edges_block_edge (t q : nat) (F : Grid) (a b : nat) :
  0 < t -> has_edges t q q 0 F -> block_edge (q * t) t (a, b) ->
  is_Some (F !! (a, b)).
Proof.
  intros Ht (Hr & Hc & He) (Ha & Hb & Hmod). simpl in Ha, Hb, Hmod.
  destruct (decide (a = 0)) as [->|Ha0]; [by apply Hr|].
  destruct (decide (b = 0)) as [->|Hb0]; [by apply Hc|].
  destruct Hmod as [Hmod|Hmod].
  - destruct (multiple_index t q a Hmod ltac:(lia)) as (i & Hi & ->).
    destruct (split_index t q b Ht ltac:(lia)) as (j & k & Hj & Hk & ->).
    by destruct (He i j k ltac:(left; lia) Hj Hk) as [_ H].
  - destruct (multiple_index t q b Hmod ltac:(lia)) as (j & Hj & ->).
    destruct (split_index t q a Ht ltac:(lia)) as (i & k & Hi & Hk & ->).
    by destruct (He i j k ltac:(left; lia) Hj Hk) as [H _].
Qed.

Lemma assemble_grid (U V : list ascii) (t q : nat) (grids : Table) :
  0 < t -> length U = q * t -> length V = q * t ->
  Forall (fun x => x ∈ bases) U -> Forall (fun x => x ∈ bases) V ->
  precompute_grids t = Ok grids ->
  let F := st_F (assemble U V t q (State (init_F (q * t)) grids [])) in
  (forall a b, is_Some (F !! (a, b)) <-> block_edge (q * t) t (a, b)) /\
  (forall a b x, F !! (a, b) = Some x -> x = lcs U V a b).
Proof.
  intros Ht HU HV HUb HVb Hg F.
  destruct (precompute_grids_lookup t) as (g & Hg' & Hk).
  rewrite Hg in Hg'. injection Hg' as <-.
  destruct (assemble_spec U V t q grids Ht HU HV HUb HVb Hk _
              (Inv_init U V t q grids Ht HU HV)) as (_ & Hag & He & _).
  fold F in Hag, He. split.
  - intros a b. split.
    + apply (assemble_keys U V t q (State (init_F (q * t)) grids [])
               (init_F_keys (q * t) t) (a, b)).
    + by apply has_edges_block_edge.
  - intros a b x Hx. apply (Hag _ _ Hx).
Qed.

(** X16.  On sequences over A, T, C, G whose padded length [n] is a
    multiple of the block size [t >= 1], the main grid [F] that
    [four_russians] has built when it returns holds exactly the cells of
    the [(n + 1) x (n + 1)] grid on block edges, and each cell [(a, b)]
    holds the length of a longest common subsequence of the first [a] and
    [b] symbols of the padded strings. *)
Theorem four_russians_main_grid (u v : list ascii) :
  Forall (fun x => x ∈ alphabet) u -> Forall (fun x => x ∈ alphabet) v ->
  chosen_t u v <> 0 -> padded_n u v mod chosen_t u v = 0 ->
  exists grids : Table,
    precompute_grids (chosen_t u v) = Ok grids /\
    let n := padded_n u v in
    let t := chosen_t u v in
    let U := ljust u n "$" in
    let V := ljust v n "$" in
    let F := st_F (assemble U V t (n / t) (State (init_F n) grids [])) in
    forall a b,
      match F !! (a, b) with
      | Some x => block_edge n t (a, b) /\ lcs_length (take a U) (take b V) x
      | None => ~ block_edge n t (a, b)
      end.
Proof.
  intros Hu Hv Ht0 Hmod.
  destruct (precompute_grids_lookup (chosen_t u v)) as (grids & Hg & _).
  exists grids. split; [done|]. intros n t U V.
  assert (n = n / t * t) as Hn.
  { rewrite Nat.mul_comm. by apply Nat.Div0.div_exact. }
  assert (length U = n) as HU by apply length_U.
  assert (length V = n) as HV by apply length_V.
  assert (Forall (fun x => x ∈ bases) U) as HUb by by apply ljust_bases.
  assert (Forall (fun x => x ∈ bases) V) as HVb by by apply ljust_bases.
  clearbody U V. revert HU HV. generalize (n / t) Hn. intros q -> HU HV F.
  destruct (assemble_grid U V t q grids ltac:(unfold t; lia) HU HV HUb HVb Hg)
    as [Hdom Hval].
  fold F in Hdom, Hval. intros a b. specialize (Hdom a b).
  destruct (F !! (a, b)) as [x|] eqn:Hx.
  - split; [by apply Hdom|]. rewrite (Hval a b x Hx). apply lcs_prefix_length.
  - intros Hedge. apply Hdom in Hedge. by destruct Hedge.
Qed.

Lemma four_russians_main_grid_witness :
  exists grids : Table,
    precompute_grids (chosen_t (str "ATCG") (str "TCGA")) = Ok grids /\
    let n := padded_n (str "ATCG") (str "TCGA") in
    let t := chosen_t (str "ATCG") (str "TCGA") in
    let U := ljust (str "ATCG") n "$" in
    let V := ljust (str "TCGA") n "$" in
    let F := st_F (assemble U V t (n / t) (State (init_F n) grids [])) in
    forall a b,
      match F !! (a, b) with
      | Some x => block_edge n t (a, b) /\ lcs_length (take a U) (take b V) x
      | None => ~ block_edge n t (a, b)
      end.
Proof.
  apply (four_russians_main_grid (str "ATCG") (str "TCGA"));
    [repeat constructor; compute_done | repeat constructor; compute_done
    | by vm_compute | reflexivity].
Defined.

(** ** The harness and the fallback *)

(** X17.  The baseline score of the test harness reads the grid at
    [(n, n)] with [n = len(s1)] and passes [n + 1] zeros for both
    boundaries.  For inputs of equal length it is the length of a longest
    common subsequence; when [s2] is longer the call raises IndexError;
    when [s2] is shorter the read misses the grid and the score is 0. *)
Theorem main_basic_score_cases (s1 s2 : list ascii) :
  (length s2 = length s1 ->
     exists z, main_basic_score s1 s2 = Ok z /\ lcs_length s1 s2 z) /\
  (length s1 < length s2 -> main_basic_score s1 s2 = Raise IndexError) /\
  (length s2 < length s1 -> main_basic_score s1 s2 = Ok 0%Z).
Proof.
  unfold main_basic_score. split_and!.
  - intros Hlen.
    destruct (construct_zero_lookup s1 s2 (length s1 + 1) (length s1 + 1)
                (length s1) (length s2)) as (dp & Hdp & Hval); [lia..|].
    exists (lcs s1 s2 (length s1) (length s2)). split; [|apply lcs_is_lcs_length].
    rewrite Hdp. simpl. by rewrite <- Hval, Hlen.
  - intros Hlen. rewrite construct_lcs_grid_short; [done|].
    right. rewrite length_replicate. lia.
  - intros Hlen.
    destruct (construct_lcs_grid_lookup s1 s2 (replicate (length s1 + 1) 0%Z)
                (replicate (length s1 + 1) 0%Z)) as (dp & Hdp & Hlk);
      [rewrite length_replicate; lia..|].
    rewrite Hdp. simpl. rewrite getitem_fst. unfold get0.
    rewrite Hlk, bool_decide_eq_false_2 by lia. done.
Qed.

Lemma padded_length_small (m n : nat) :
  Nat.max m n <= 2 -> block_size (padded_length m n) = 0.
Proof.
  intros Hmax. destruct (padded_length_exit m n) as (_ & k & -> & Hmin).
  rewrite block_size_pow2.
  assert (k <= 1) as Hk.
  { destruct Hmin as [->|Hmin]; [lia|].
    assert (2 ^ (k - 1) < 2 ^ 1) as Hlt by (simpl; lia).
    apply Nat.pow_lt_mono_r_iff in Hlt; lia. }
  apply Nat.div_small. lia.
Qed.

(** X18.  The fallback for short inputs.  When both inputs have at most
    two symbols the block size is 0, no table is built, and
    [four_russians] returns the length of a longest common subsequence
    for any symbols at all, provided [u] does not contain the padding
    symbol [$]. *)
Theorem four_russians_short_inputs (u v : list ascii) :
  Nat.max (length u) (length v) <= 2 ->
  Forall (fun x => x <> "$"%char) u ->
  exists z : Z, four_russians u v = Ok z /\ lcs_length u v z.
Proof.
  intros Hmax Hu. exists (lcs u v (length u) (length v)).
  split; [|apply lcs_is_lcs_length].
  pose proof (padded_bounds u v) as (Hlu & Hlv & _).
  rewrite <- (lcs_ljust u v (padded_length (length u) (length v))) by done.
  apply four_russians_small. by apply padded_length_small.
Qed.

Lemma four_russians_short_inputs_witness :
  exists z : Z, four_russians (str "XY") (str "Y$") = Ok z /\
                lcs_length (str "XY") (str "Y$") z.
Proof.
  apply (four_russians_short_inputs (str "XY") (str "Y$"));
    [simpl; lia | repeat constructor; discriminate].
Defined.
